(** * memset / bzero size-tiered dispatch (libc/src/string/memory_utils/memset_implementations.h)

    A shallow embedding of the dispatch and tiering logic of [inline_memset]:
    every routine is a computation in a small writer monad that records, in
    program order, the stores it issues.  Memory is then obtained by replaying
    the recorded stores. *)

From Stdlib Require Import ZArith List Lia Bool.
Import ListNotations.
Local Open Scope Z_scope.

(** ** [size_t] / [uintptr_t] arithmetic (64-bit, wrapping) *)

Definition size_modulus : Z := 2 ^ 64.
Definition size_wrap (z : Z) : Z := z mod size_modulus.
Definition size_add (a b : Z) : Z := size_wrap (a + b).
Definition size_sub (a b : Z) : Z := size_wrap (a - b).
Definition size_neg (a : Z) : Z := size_wrap (- a).

(** ** Storage units *)

(** The element types the dispatchers instantiate [generic::Memset] with. *)
Inductive ElemT : Set :=
| uint8_t | uint16_t | uint32_t | uint64_t
| generic_v128 | generic_v256 | generic_v512.

(** A block type is an element type or a [cpp::array<T, n>] of elements. *)
Inductive BlockT : Set :=
| Elem (t : ElemT)
| Array (t : ElemT) (n : nat).

Definition sizeof_elem (t : ElemT) : Z :=
  match t with
  | uint8_t => 1 | uint16_t => 2 | uint32_t => 4 | uint64_t => 8
  | generic_v128 => 16 | generic_v256 => 32 | generic_v512 => 64
  end.

Definition sizeof (T : BlockT) : Z :=
  match T with
  | Elem t => sizeof_elem t
  | Array t n => sizeof_elem t * Z.of_nat n
  end.

(** ** Recorded stores and memory *)

Inductive StoreKind : Set :=
| Unaligned       (* plain fixed-width store *)
| AssertAligned   (* store through a pointer asserted to be aligned to its width *)
| DcZva.          (* [dc zva]: zero the whole cache line containing the address *)

Record Store : Set := mkStore {
  st_kind : StoreKind;
  st_addr : Z;
  st_size : Z;       (* width in bytes *)
  st_pattern : Z     (* the stored unit, little endian *)
}.

Definition Mem : Type := Z -> Z.

(** First byte address a store writes. *)
Definition store_base (s : Store) : Z :=
  match st_kind s with
  | DcZva => st_addr s - st_addr s mod st_size s
  | _ => st_addr s
  end.

(** Byte written at [store_base s + i]. *)
Definition store_byte (s : Store) (i : Z) : Z :=
  match st_kind s with
  | DcZva => 0
  | _ => Z.land (Z.shiftr (st_pattern s) (8 * i)) 255
  end.

Definition touches (s : Store) (x : Z) : bool :=
  (store_base s <=? x) && (x <? store_base s + st_size s).

Definition apply_store (s : Store) (m : Mem) : Mem :=
  fun x => if touches s x then store_byte s (x - store_base s) else m x.

Definition exec (tr : list Store) (m : Mem) : Mem :=
  fold_left (fun m s => apply_store s m) tr m.

(** Does some store of the trace write byte [x]? *)
Definition writes (tr : list Store) (x : Z) : bool :=
  existsb (fun s => touches s x) tr.

(** The individual byte writes of a trace, in program order. *)
Definition byte_writes_store (s : Store) : list (Z * Z) :=
  map (fun i => (store_base s + Z.of_nat i, store_byte s (Z.of_nat i)))
      (seq 0 (Z.to_nat (st_size s))).

Definition byte_writes (tr : list Store) : list (Z * Z) :=
  flat_map byte_writes_store tr.

(** ** The store-recording monad

    [None] means the fuel bounding a loop ran out; otherwise a computation
    yields its result together with the stores it issued. *)

Definition M (A : Type) : Type := option (A * list Store).

Definition ret {A : Type} (a : A) : M A := Some (a, []).

Definition bind {A B : Type} (c : M A) (k : A -> M B) : M B :=
  match c with
  | None => None
  | Some (a, t1) =>
      match k a with
      | None => None
      | Some (b, t2) => Some (b, t1 ++ t2)
      end
  end.

Definition emit (s : Store) : M unit := Some (tt, [s]).

Definition out_of_fuel {A : Type} : M A := None.

Notation "x <- c ;; k" := (bind c (fun x => k))
  (at level 61, c at next level, right associativity).
Notation "c ;; k" := (bind c (fun _ => k))
  (at level 61, right associativity).

(** Runs [body] on the elements of [l], in order. *)
Fixpoint for_each {A : Type} (l : list A) (body : A -> M unit) : M unit :=
  match l with
  | [] => ret tt
  | a :: l' => body a ;; for_each l' body
  end.

(** ** Collaborators (utils.h, op_generic.h, op_aarch64.h, byte_per_byte.h)

    The header only calls these; each is modelled from the specification's
    description of its interface. *)

(** Modelled from the spec: [generic::splat<T>] is defined in op_generic.h,
    outside this header; "broadcast a byte across a wider fixed-width unit",
    byte by byte from the least significant one. *)
Fixpoint splat_bytes (n : nat) (value : Z) : Z :=
  match n with
  | O => 0
  | S k => Z.lor value (Z.shiftl (splat_bytes k value) 8)
  end.

(** Modelled from the spec: [generic::splat<T>] at the width of [T]. *)
Definition splat (t : ElemT) (value : Z) : Z :=
  splat_bytes (Z.to_nat (sizeof_elem t)) value.

(** Modelled from the spec: the fixed-width [store] of utils.h; "write a
    fixed-width unit at dst+offset". *)
Definition store (t : ElemT) (dst : Z) (pattern : Z) : M unit :=
  emit (mkStore Unaligned dst (sizeof_elem t) pattern).

(** Modelled from the spec: [store32_aligned] / [store64_aligned] of utils.h;
    the "aligned" variant of store, which "asserts the offset is a multiple of
    the unit's size". *)
Definition store_aligned (t : ElemT) (pattern : Z) (dst offset : Z) : M unit :=
  emit (mkStore AssertAligned (dst + offset) (sizeof_elem t) pattern).

(** Modelled from the spec: the 32-bit instance of the aligned store. *)
Definition store32_aligned := store_aligned uint32_t.

(** Modelled from the spec: the 64-bit instance of the aligned store. *)
Definition store64_aligned := store_aligned uint64_t.

(** Modelled from the spec: [generic::Memset<T>::block] of op_generic.h; one
    store of the splatted value for an element type, and for an array type
    ("composed from multiple ... stores") one store per element, in order. *)
Definition Memset_block (T : BlockT) (dst value : Z) : M unit :=
  match T with
  | Elem t => store t dst (splat t value)
  | Array t n =>
      let Splat := splat t value in
      for_each (seq 0 n)
        (fun I => store t (dst + Z.of_nat I * sizeof_elem t) Splat)
  end.

(** Modelled from the spec: [generic::Memset<T>::tail]; the store "at
    dst + count - width". *)
Definition Memset_tail (T : BlockT) (dst value count : Z) : M unit :=
  Memset_block T (dst + count - sizeof T) value.

(** Modelled from the spec: [generic::Memset<T>::head_tail]; "store the fill
    pattern at the start of the range AND at dst + count - width". *)
Definition Memset_head_tail (T : BlockT) (dst value count : Z) : M unit :=
  Memset_block T dst value ;;
  Memset_tail T dst value count.

(** Modelled from the spec: [generic::MemsetSequence<T1, T2>::block]; a
    "sequence, not overlapping" of two stores. *)
Definition MemsetSequence_block (T1 T2 : BlockT) (dst value : Z) : M unit :=
  Memset_block T1 dst value ;;
  Memset_block T2 (dst + sizeof T1) value.

(** Modelled from the spec: the store loop of the two [loop_and_tail]
    routines (op_generic.h, op_aarch64.h), the "store loop over the body";
    one block per iteration, in [size_t] arithmetic:
    [do { block(dst + offset); offset += SIZE; } while (offset < count - SIZE)]. *)
Fixpoint block_loop (fuel : nat) (block : Z -> M unit) (SIZE : Z)
         (dst count offset : Z) : M unit :=
  match fuel with
  | O => out_of_fuel
  | S fuel' =>
      block (dst + offset) ;;
      let offset := size_add offset SIZE in
      if offset <? size_sub count SIZE
      then block_loop fuel' block SIZE dst count offset
      else ret tt
  end.

(** Modelled from the spec: [generic::Memset<T>::loop_and_tail]; a "store loop
    over the body followed by an overlapping tail store". *)
Definition Memset_loop_and_tail (fuel : nat) (T : BlockT)
           (dst value count : Z) : M unit :=
  block_loop fuel (fun p => Memset_block T p value) (sizeof T) dst count 0 ;;
  Memset_tail T dst value count.

(** Modelled from the spec: the block width of
    [aarch64::neon::BzeroCacheLine] (op_aarch64.h), a 64-byte cache line. *)
Definition BzeroCacheLine_SIZE : Z := 64.

(** Modelled from the spec: [BzeroCacheLine::block], the "cache-line
    zero-fill instruction" ([dc zva]) on the line containing [dst]. *)
Definition BzeroCacheLine_block (dst : Z) : M unit :=
  emit (mkStore DcZva dst BzeroCacheLine_SIZE 0).

(** Modelled from the spec: [BzeroCacheLine::loop_and_tail], the "external op
    that zero-fills aligned cache-line-sized chunks using the dedicated
    instruction", for "the aligned body plus tail" (the tail is a plain
    512-bit store, since it is not aligned). *)
Definition BzeroCacheLine_loop_and_tail (fuel : nat)
           (dst value count : Z) : M unit :=
  block_loop fuel BzeroCacheLine_block BzeroCacheLine_SIZE dst count 0 ;;
  Memset_tail (Elem generic_v512) dst value count.

(** Modelled from the spec: [inline_memset_byte_per_byte] of
    generic/byte_per_byte.h; "fills count bytes one at a time starting at an
    optional offset":
    [for (; offset < count; ++offset) block<uint8_t>(dst + offset, value)]. *)
Fixpoint inline_memset_byte_per_byte (fuel : nat)
         (dst value count offset : Z) : M unit :=
  match fuel with
  | O => out_of_fuel
  | S fuel' =>
      if offset <? count then
        Memset_block (Elem uint8_t) (dst + offset) value ;;
        inline_memset_byte_per_byte fuel' dst value count (size_add offset 1)
      else ret tt
  end.

(** Modelled from the spec: [distance_to_align_down] is defined in utils.h,
    outside this header; the distance from the previous boundary of a
    power-of-two [alignment] up to [ptr]. *)
Definition distance_to_align_down (alignment ptr : Z) : Z :=
  Z.land ptr (alignment - 1).

(** Modelled from the spec: [distance_to_align_up] of utils.h, the "distance
    from dst to the next word boundary" (zero when [ptr] is aligned). *)
Definition distance_to_align_up (alignment ptr : Z) : Z :=
  Z.land (size_neg ptr) (alignment - 1).

(** Modelled from the spec: [distance_to_next_aligned] of utils.h, the
    distance from [ptr] to the boundary strictly above it. *)
Definition distance_to_next_aligned (alignment ptr : Z) : Z :=
  alignment - distance_to_align_down alignment ptr.

(** Modelled from the spec: [align_to_next_boundary] of utils.h; "align the
    pointer up to a 32-byte boundary": the pointer advances to the next
    boundary and [count] shrinks by the same amount. *)
Definition align_to_next_boundary (SIZE p1 count : Z) : Z * Z :=
  let offset := distance_to_next_aligned SIZE p1 in
  (p1 + offset, size_sub count offset).

(** ** The alignment-aware scalar strategies *)

(** [for (; offset < count - kAlign; offset += kAlign)
       storeN_aligned(splat(value), dst, offset);]
    yielding the value of [offset] on exit. *)
Fixpoint aligned_store_loop (fuel : nat) (store_word : Z -> Z -> M unit)
         (kAlign dst count offset : Z) : M Z :=
  match fuel with
  | O => out_of_fuel
  | S fuel' =>
      if offset <? size_sub count kAlign then
        store_word dst offset ;;
        aligned_store_loop fuel' store_word kAlign dst count
                           (size_add offset kAlign)
      else ret offset
  end.

Definition inline_memset_aligned_access_32bit (fuel : nat)
           (dst value count : Z) : M unit :=
  let kAlign := sizeof_elem uint32_t in
  if count <=? 2 * kAlign then
    inline_memset_byte_per_byte fuel dst value count 0
  else
    let bytes_to_dst_align := distance_to_align_up kAlign dst in
    inline_memset_byte_per_byte fuel dst value bytes_to_dst_align 0 ;;
    offset <- aligned_store_loop fuel
                (store32_aligned (splat uint32_t value))
                kAlign dst count bytes_to_dst_align ;;
    inline_memset_byte_per_byte fuel dst value count offset.

Definition inline_memset_aligned_access_64bit (fuel : nat)
           (dst value count : Z) : M unit :=
  let kAlign := sizeof_elem uint64_t in
  if count <=? 2 * kAlign then
    inline_memset_byte_per_byte fuel dst value count 0
  else
    let bytes_to_dst_align := distance_to_align_up kAlign dst in
    inline_memset_byte_per_byte fuel dst value bytes_to_dst_align 0 ;;
    offset <- aligned_store_loop fuel
                (store64_aligned (splat uint64_t value))
                kAlign dst count bytes_to_dst_align ;;
    inline_memset_byte_per_byte fuel dst value count offset.

(** ** x86 *)

(** The vector extension the translation unit is compiled for. *)
Inductive X86Ext : Set := AVX512F | AVX | SSE2 | NoVector.

Module X86.
Definition uint128_t (e : X86Ext) : BlockT :=
  match e with
  | AVX512F | AVX | SSE2 => Elem generic_v128
  | NoVector => Array uint64_t 2
  end.

Definition uint256_t (e : X86Ext) : BlockT :=
  match e with
  | AVX512F | AVX => Elem generic_v256
  | SSE2 => Array generic_v128 2
  | NoVector => Array uint64_t 4
  end.

Definition uint512_t (e : X86Ext) : BlockT :=
  match e with
  | AVX512F => Elem generic_v512
  | AVX => Array generic_v256 2
  | SSE2 => Array generic_v128 4
  | NoVector => Array uint64_t 8
  end.
End X86.

Definition inline_memset_x86 (fuel : nat) (e : X86Ext)
           (dst value count : Z) : M unit :=
  if count =? 0 then ret tt
  else if count =? 1 then Memset_block (Elem uint8_t) dst value
  else if count =? 2 then Memset_block (Elem uint16_t) dst value
  else if count =? 3 then
    MemsetSequence_block (Elem uint16_t) (Elem uint8_t) dst value
  else if count <=? 8 then Memset_head_tail (Elem uint32_t) dst value count
  else if count <=? 16 then Memset_head_tail (Elem uint64_t) dst value count
  else if count <=? 32 then Memset_head_tail (X86.uint128_t e) dst value count
  else if count <=? 64 then Memset_head_tail (X86.uint256_t e) dst value count
  else if count <=? 128 then Memset_head_tail (X86.uint512_t e) dst value count
  else
    (* Aligned loop *)
    Memset_block (X86.uint256_t e) dst value ;;
    let '(dst, count) := align_to_next_boundary 32 dst count in
    Memset_loop_and_tail fuel (X86.uint256_t e) dst value count.

(** ** AArch64 *)

Module AArch64.
Definition uint128_t : BlockT := Elem generic_v128.
Definition uint256_t : BlockT := Elem generic_v256.
Definition uint512_t : BlockT := Elem generic_v512.
End AArch64.

(** [hasZva] is the result of the capability query [aarch64::neon::hasZva()]. *)
Definition inline_memset_aarch64 (fuel : nat) (hasZva : bool)
           (dst value count : Z) : M unit :=
  if count =? 0 then ret tt
  else if count <=? 3 then
    Memset_block (Elem uint8_t) dst value ;;
    if 1 <? count then Memset_tail (Elem uint16_t) dst value count
    else ret tt
  else if count <=? 8 then Memset_head_tail (Elem uint32_t) dst value count
  else if count <=? 16 then Memset_head_tail (Elem uint64_t) dst value count
  else if count <=? 32 then
    Memset_head_tail AArch64.uint128_t dst value count
  else if count <=? 32 + 64 then
    Memset_block AArch64.uint256_t dst value ;;
    if count <=? 64 then Memset_tail AArch64.uint256_t dst value count
    else
      Memset_block AArch64.uint256_t (dst + 32) value ;;
      Memset_tail AArch64.uint256_t dst value count
  else if (448 <=? count) && (value =? 0) && hasZva then
    Memset_block AArch64.uint512_t dst 0 ;;
    let '(dst, count) := align_to_next_boundary 64 dst count in
    BzeroCacheLine_loop_and_tail fuel dst 0 count
  else
    Memset_block AArch64.uint128_t dst value ;;
    let '(dst, count) := align_to_next_boundary 16 dst count in
    Memset_loop_and_tail fuel AArch64.uint512_t dst value count.

(** ** Top-level selector *)

(** The architecture the library is built for, with what the build (x86) or
    the CPU (AArch64) fixes besides. *)
Inductive Target : Set :=
| LIBC_TARGET_ARCH_IS_X86 (e : X86Ext)
| LIBC_TARGET_ARCH_IS_AARCH64 (hasZva : bool)
| LIBC_TARGET_ARCH_IS_RISCV64
| LIBC_TARGET_ARCH_IS_RISCV32
| LIBC_TARGET_ARCH_IS_OTHER.

Definition inline_memset (fuel : nat) (target : Target)
           (dst value count : Z) : M unit :=
  match target with
  | LIBC_TARGET_ARCH_IS_X86 e => inline_memset_x86 fuel e dst value count
  | LIBC_TARGET_ARCH_IS_AARCH64 z => inline_memset_aarch64 fuel z dst value count
  | LIBC_TARGET_ARCH_IS_RISCV64 =>
      inline_memset_aligned_access_64bit fuel dst value count
  | LIBC_TARGET_ARCH_IS_RISCV32 =>
      inline_memset_aligned_access_32bit fuel dst value count
  | LIBC_TARGET_ARCH_IS_OTHER =>
      inline_memset_byte_per_byte fuel dst value count 0
  end.

(** * Specification vocabulary *)

(** [dst, dst + count) is a byte range of the 64-bit address space. *)
Definition valid_range (dst count : Z) : Prop :=
  0 <= dst /\ 0 <= count < size_modulus /\ dst + count <= size_modulus.

(** The store stays inside [dst, dst + count). *)
Definition within (dst count : Z) (s : Store) : Prop :=
  dst <= store_base s /\ store_base s + st_size s <= dst + count.

(** Weakest precondition for the store-recording monad: the computation
    finishes (the fuel suffices) and its result and trace satisfy [post]. *)
Definition wp {A : Type} (c : M A) (post : A -> list Store -> Prop) : Prop :=
  match c with
  | Some (a, tr) => post a tr
  | None => False
  end.

(** A store that writes [v] to every byte of a non-empty footprint. *)
Definition fill_store (v : Z) (s : Store) : Prop :=
  0 < st_size s /\ forall i, 0 <= i < st_size s -> store_byte s i = v.

Definition interval (lo hi : Z) : Z -> Prop := fun x => lo <= x < hi.

(** A trace of fill stores of [v] whose footprint is exactly [P]. *)
Definition fills (v : Z) (P : Z -> Prop) (tr : list Store) : Prop :=
  Forall (fill_store v) tr /\ forall x, writes tr x = true <-> P x.

(** [len] consecutive byte writes of [v] starting at [a]. *)
Definition fill_writes (a len v : Z) : list (Z * Z) :=
  map (fun i => (a + Z.of_nat i, v)) (seq 0 (Z.to_nat len)).

(** [n] stores [mk a], [mk (a + w)], ... at stride [w]. *)
Definition strided (mk : Z -> Store) (w a : Z) (n : nat) : list Store :=
  map (fun j => mk (a + w * Z.of_nat j)) (seq 0 n).

(** A single-unit store of [w] bytes of the splatted value at [a]. *)
Definition unit_store (k : StoreKind) (w value a : Z) : Store :=
  mkStore k a w (splat_bytes (Z.to_nat w) value).

(** Byte-per-byte fill of the offsets [lo, hi) from [dst]. *)
Definition byte_fill (dst value lo hi : Z) : list Store :=
  strided (unit_store Unaligned 1 value) 1 (dst + lo) (Z.to_nat (hi - lo)).

(** [n] aligned word stores of width [w] from offset [lo]. *)
Definition word_fill (w dst value lo : Z) (n : nat) : list Store :=
  strided (unit_store AssertAligned w value) w (dst + lo) n.

(** The body shared by the 32-bit and 64-bit alignment-aware strategies once
    [count > 2 * kAlign]. *)
Definition aligned_access_body (fuel : nat) (t : ElemT)
           (dst value count : Z) : M unit :=
  let kAlign := sizeof_elem t in
  let bytes_to_dst_align := distance_to_align_up kAlign dst in
  inline_memset_byte_per_byte fuel dst value bytes_to_dst_align 0 ;;
  offset <- aligned_store_loop fuel (store_aligned t (splat t value))
              kAlign dst count bytes_to_dst_align ;;
  inline_memset_byte_per_byte fuel dst value count offset.

(** ** The x86 tier table, as the specification words it *)

Inductive Strategy : Set :=
| NoOp
| SingleStore (width : Z)
| StoreSequence (width1 width2 : Z)
| HeadTail (width : Z)
| HeadAlignLoopTail (head_width alignment loop_width : Z).

Definition x86_tier_table (count : Z) : Strategy :=
  if count =? 0 then NoOp
  else if count =? 1 then SingleStore 1
  else if count =? 2 then SingleStore 2
  else if count =? 3 then StoreSequence 2 1
  else if (4 <=? count) && (count <=? 8) then HeadTail 4
  else if (9 <=? count) && (count <=? 16) then HeadTail 8
  else if (17 <=? count) && (count <=? 32) then HeadTail 16
  else if (33 <=? count) && (count <=? 64) then HeadTail 32
  else if (65 <=? count) && (count <=? 128) then HeadTail 64
  else HeadAlignLoopTail 32 32 32.

(** The stores a strategy stands for when every unit is one native store.
    "head+tail" stores at the start and at [dst + count - width]; the aligned
    loop stores from the first boundary above [dst] until the tail store
    covers the rest. *)
Definition strategy_stores (s : Strategy) (dst value count : Z) : list Store :=
  match s with
  | NoOp => []
  | SingleStore w => [unit_store Unaligned w value dst]
  | StoreSequence w1 w2 =>
      [unit_store Unaligned w1 value dst;
       unit_store Unaligned w2 value (dst + w1)]
  | HeadTail w =>
      [unit_store Unaligned w value dst;
       unit_store Unaligned w value (dst + count - w)]
  | HeadAlignLoopTail hw al w =>
      let p := dst + (al - dst mod al) in
      let body := dst + count - w - p in
      let n := Z.to_nat ((body + w - 1) / w) in
      [unit_store Unaligned hw value dst]
        ++ strided (unit_store Unaligned w value) w p n
        ++ [unit_store Unaligned w value (dst + count - w)]
  end.

(** ** Relations carried through the loops *)

Definition fills_rel (v : Z) : Z -> Z -> list Store -> Prop :=
  fun a b => fills v (interval a b).

Definition writes_rel (v : Z) : Z -> Z -> list Store -> Prop :=
  fun a b tr => byte_writes tr = fill_writes a (b - a) v.

Definition strided_rel (mk : Z -> Store) (w : Z)
  : Z -> Z -> list Store -> Prop :=
  fun a b tr => exists n : nat, b = a + w * Z.of_nat n /\ tr = strided mk w a n.

Definition all_rel (P : Store -> Prop) : Z -> Z -> list Store -> Prop :=
  fun _ _ tr => Forall P tr.

(** Stores by kind: issued by [dc zva], or plain fixed-width stores. *)
Definition is_zva (s : Store) : Prop := st_kind s = DcZva.
Definition is_plain (s : Store) : Prop := st_kind s = Unaligned.

(** The aligned-store assertion for words of [w] bytes: a store issued through
    the aligned primitive is [w] wide, its address is a multiple of [w], and
    it lies a whole number of words above [base]. *)
Definition aligned_word (w base : Z) (s : Store) : Prop :=
  st_kind s = AssertAligned ->
  st_size s = w /\ st_addr s mod w = 0 /\
  exists j : nat, st_addr s = base + w * Z.of_nat j.

(** ** The shape of an alignment-aware fill, as the specification words it

    [c] is the strategy's computation and [fallback] the byte-per-byte
    fallback on the same arguments. *)
Definition aligned_access_shape (c fallback : M unit)
           (w dst value count : Z) : Prop :=
  if count <=? 2 * w then
    c = fallback /\ c = Some (tt, byte_fill dst value 0 count)
  else
    let d := distance_to_align_up w dst in
    exists n : nat,
      let o := d + w * Z.of_nat n in
      c = Some (tt, byte_fill dst value 0 d
                      ++ word_fill w dst value d n
                      ++ byte_fill dst value o count) /\
      count - w <= o /\ d + w * (Z.of_nat n - 1) < count - w.

(** Every word store of the middle loop lies in [dst, dst + count) and below
    the final offset [o], from which the explicit tail fill takes over. *)
Definition word_stores_in_bounds (c : M unit) (w dst value count : Z) : Prop :=
  let d := distance_to_align_up w dst in
  exists n : nat,
    let o := d + w * Z.of_nat n in
    c = Some (tt, byte_fill dst value 0 d
                    ++ word_fill w dst value d n
                    ++ byte_fill dst value o count) /\
    Forall (fun s => within dst count s /\
                     store_base s + st_size s <= dst + o)
           (word_fill w dst value d n) /\
    size_sub count w = count - w /\ 0 <= count - w /\
    count - w <= o < count.

(** ** Vocabulary for the further properties *)

(** The computation returns a trace that writes every byte of
    [dst, dst + count) exactly once, in ascending address order. *)
Definition writes_each_byte_once (c : M unit) (dst value count : Z) : Prop :=
  exists tr, c = Some (tt, tr) /\ byte_writes tr = fill_writes dst count value.

(** Number of single-byte stores and of aligned word stores of a trace. *)
Definition byte_store_count (tr : list Store) : Z :=
  Z.of_nat (length (filter (fun s => st_size s =? 1) tr)).

Definition word_store_count (tr : list Store) : Z :=
  Z.of_nat (length (filter (fun s => match st_kind s with
                                     | AssertAligned => true
                                     | _ => false
                                     end) tr)).

(** The alignment-aware strategy stores at most [2 * w - 1] bytes one at a
    time; aligned word stores cover all the rest. *)
Definition mostly_word_stores (c : M unit) (w count : Z) : Prop :=
  exists tr,
    c = Some (tt, tr) /\
    byte_store_count tr <= 2 * w - 1 /\
    byte_store_count tr + w * word_store_count tr = count.


(** One [dc zva] at [a]. *)
Definition zva_store (a : Z) : Store := mkStore DcZva a BzeroCacheLine_SIZE 0.

(** The stores of the AArch64 dispatcher in closed form: the head/tail tiers
    up to 32 bytes, one or two 256-bit blocks and a tail up to 96 bytes, and
    beyond that a head block, the loop stores from the next boundary [p] at
    stride 64, and the tail store. *)
Definition aarch64_closed_form (hasZva : bool) (dst value count : Z)
  : list Store :=
  let u := unit_store Unaligned in
  if count =? 0 then []
  else if count <=? 3 then
    u 1 value dst :: (if 1 <? count then [u 2 value (dst + count - 2)] else [])
  else if count <=? 8 then [u 4 value dst; u 4 value (dst + count - 4)]
  else if count <=? 16 then [u 8 value dst; u 8 value (dst + count - 8)]
  else if count <=? 32 then [u 16 value dst; u 16 value (dst + count - 16)]
  else if count <=? 64 then [u 32 value dst; u 32 value (dst + count - 32)]
  else if count <=? 96 then
    [u 32 value dst; u 32 value (dst + 32); u 32 value (dst + count - 32)]
  else if (448 <=? count) && (value =? 0) && hasZva then
    let p := dst + (64 - dst mod 64) in
    let n := Z.to_nat ((dst + count - p - 1) / 64) in
    [u 64 0 dst] ++ strided zva_store 64 p n ++ [u 64 0 (dst + count - 64)]
  else
    let p := dst + (16 - dst mod 16) in
    let n := Z.to_nat ((dst + count - p - 1) / 64) in
    [u 16 value dst] ++ strided (u 64 value) 64 p n
      ++ [u 64 value (dst + count - 64)].


(** ** The two AArch64 paths beyond 96 bytes

    [tr] is the trace of the dedicated zero-fill path: the 512-bit zero block
    at [dst], then, with [(p, c)] the pointer and count advanced to the next
    64-byte boundary, the trace of the cache-line-zeroing [loop_and_tail] on
    [(p, c)], which is [(c - 1) / 64] [dc zva] stores at stride 64 from [p]
    followed by the 512-bit tail store. *)
Definition zva_path_trace (fuel : nat) (dst count : Z) (tr : list Store)
  : Prop :=
  let '(p, c) := align_to_next_boundary 64 dst count in
  exists head tr_loop,
    Memset_block AArch64.uint512_t dst 0 = Some (tt, head) /\
    head = [unit_store Unaligned 64 0 dst] /\
    p mod 64 = 0 /\ dst < p <= dst + 64 /\ c = count - (p - dst) /\
    BzeroCacheLine_loop_and_tail fuel p 0 c = Some (tt, tr_loop) /\
    tr_loop = strided zva_store 64 p (Z.to_nat ((c - 1) / 64))
                ++ [unit_store Unaligned 64 0 (dst + count - 64)] /\
    tr = head ++ tr_loop.

(** [tr] is the trace of the generic path: the 128-bit head store at [dst],
    then, with [(p, c)] advanced to the next 16-byte boundary, the trace of
    the generic 512-bit [loop_and_tail] on [(p, c)]. *)
Definition generic_path_trace (fuel : nat) (dst value count : Z)
           (tr : list Store) : Prop :=
  let '(p, c) := align_to_next_boundary 16 dst count in
  exists head tr_loop,
    Memset_block AArch64.uint128_t dst value = Some (tt, head) /\
    head = [unit_store Unaligned 16 value dst] /\
    p mod 16 = 0 /\ dst < p <= dst + 16 /\ c = count - (p - dst) /\
    Memset_loop_and_tail fuel AArch64.uint512_t p value c
      = Some (tt, tr_loop) /\
    tr_loop = strided (unit_store Unaligned 64 value) 64 p
                (Z.to_nat ((c - 1) / 64))
                ++ [unit_store Unaligned 64 value (dst + count - 64)] /\
    tr = head ++ tr_loop.

(** * Reasoning principles *)

Ltac splits :=
  repeat match goal with |- _ /\ _ => split end.

(** ** Wrapping arithmetic *)

Lemma size_wrap_small z : 0 <= z < size_modulus -> size_wrap z = z.
Proof. intros H. unfold size_wrap. now apply Z.mod_small. Qed.

Lemma size_sub_small a b :
  0 <= b <= a -> a < size_modulus -> size_sub a b = a - b.
Proof. intros H1 H2. unfold size_sub. apply size_wrap_small. lia. Qed.

Lemma size_add_small a b :
  0 <= a -> 0 <= b -> a + b < size_modulus -> size_add a b = a + b.
Proof. intros H1 H2 H3. unfold size_add. apply size_wrap_small. lia. Qed.

(** ** The monad *)

Lemma wp_ret {A : Type} (a : A) (post : A -> list Store -> Prop) :
  post a [] -> wp (ret a) post.
Proof. exact (fun H => H). Qed.

Lemma wp_emit (s : Store) (post : unit -> list Store -> Prop) :
  post tt [s] -> wp (emit s) post.
Proof. exact (fun H => H). Qed.

Lemma wp_bind {A B : Type} (c : M A) (k : A -> M B)
      (post : B -> list Store -> Prop) :
  wp c (fun a t1 => wp (k a) (fun b t2 => post b (t1 ++ t2))) ->
  wp (bind c k) post.
Proof.
  unfold wp, bind. destruct c as [[a t1]|]; [|tauto].
  destruct (k a) as [[b t2]|]; tauto.
Qed.

Lemma wp_mono {A : Type} (c : M A) (P Q : A -> list Store -> Prop) :
  wp c P -> (forall a tr, P a tr -> Q a tr) -> wp c Q.
Proof. unfold wp. destruct c as [[a tr]|]; auto. Qed.

Lemma wp_conj {A : Type} (c : M A) (P Q : A -> list Store -> Prop) :
  wp c P -> wp c Q -> wp c (fun a tr => P a tr /\ Q a tr).
Proof. unfold wp. destruct c as [[a tr]|]; auto. Qed.

Lemma wp_result (c : M unit) (post : unit -> list Store -> Prop) :
  wp c post -> exists tr, c = Some (tt, tr) /\ post tt tr.
Proof.
  unfold wp. destruct c as [[[] tr]|]; [|tauto]. intros H. now exists tr.
Qed.

(** ** Replaying traces *)

Lemma writes_app t1 t2 x : writes (t1 ++ t2) x = writes t1 x || writes t2 x.
Proof. unfold writes. apply existsb_app. Qed.

Lemma byte_writes_app t1 t2 :
  byte_writes (t1 ++ t2) = byte_writes t1 ++ byte_writes t2.
Proof. unfold byte_writes. apply flat_map_app. Qed.

Lemma touches_iff s x :
  touches s x = true <-> store_base s <= x < store_base s + st_size s.
Proof. unfold touches. rewrite andb_true_iff, Z.leb_le, Z.ltb_lt. tauto. Qed.

Lemma exec_fill_trace v tr : Forall (fill_store v) tr ->
  forall m x, exec tr m x = if writes tr x then v else m x.
Proof.
  induction 1 as [|s tr Hs _ IH]; intros m x; [reflexivity|].
  change (exec (s :: tr) m) with (exec tr (apply_store s m)).
  rewrite IH. cbn [writes existsb]. fold (writes tr x).
  destruct (writes tr x); [now rewrite orb_true_r|].
  rewrite orb_false_r. unfold apply_store.
  destruct (touches s x) eqn:E; [|reflexivity].
  apply touches_iff in E. apply Hs. lia.
Qed.

Lemma fills_exec v P tr m x : fills v P tr ->
  (P x -> exec tr m x = v) /\ (~ P x -> exec tr m x = m x).
Proof.
  intros [Hf Hw]. rewrite (exec_fill_trace v tr Hf).
  destruct (writes tr x) eqn:E.
  - split; [reflexivity|]. intros Hn. exfalso. apply Hn, Hw, E.
  - split; [|reflexivity]. intros Hp. apply Hw in Hp. congruence.
Qed.

(** Two traces with the same footprint, filled with the same value, leave
    the same memory. *)
Lemma fills_exec_eq v P t1 t2 m x :
  fills v P t1 -> fills v P t2 -> exec t1 m x = exec t2 m x.
Proof.
  intros [F1 W1] [F2 W2].
  rewrite (exec_fill_trace v t1 F1), (exec_fill_trace v t2 F2).
  destruct (writes t1 x) eqn:E1, (writes t2 x) eqn:E2; try reflexivity.
  - apply W1, W2 in E1. congruence.
  - apply W2, W1 in E2. congruence.
Qed.

Lemma fills_nil v P : (forall x, ~ P x) -> fills v P [].
Proof.
  intros H. split; [constructor|]. intros x. cbn. split; [discriminate|].
  intros Hp. now apply H in Hp.
Qed.

Lemma fills_app v P Q t1 t2 :
  fills v P t1 -> fills v Q t2 -> fills v (fun x => P x \/ Q x) (t1 ++ t2).
Proof.
  intros [F1 W1] [F2 W2]. split.
  - apply Forall_app. now split.
  - intros x. rewrite writes_app, orb_true_iff, W1, W2. tauto.
Qed.

Lemma fills_ext v P Q tr :
  fills v P tr -> (forall x, P x <-> Q x) -> fills v Q tr.
Proof.
  intros [F W] H. split; [exact F|]. intros x. rewrite W. apply H.
Qed.

Lemma fills_single v s :
  fill_store v s ->
  fills v (interval (store_base s) (store_base s + st_size s)) [s].
Proof.
  intros H. split; [constructor; [exact H|constructor]|]. intros x. cbn.
  rewrite orb_false_r. apply touches_iff.
Qed.

(** Every store of a trace stays inside the footprint of the trace. *)
Lemma fills_within v dst count tr :
  fills v (interval dst (dst + count)) tr -> Forall (within dst count) tr.
Proof.
  intros [F W]. apply Forall_forall. intros s Hin.
  assert (Hs : fill_store v s) by (rewrite Forall_forall in F; auto).
  destruct Hs as [Hpos _].
  assert (Ht : forall x, touches s x = true -> interval dst (dst + count) x).
  { intros x Hx. apply W. unfold writes. apply existsb_exists. eauto. }
  pose proof (Ht (store_base s)) as H1.
  pose proof (Ht (store_base s + st_size s - 1)) as H2.
  rewrite touches_iff in H1, H2. unfold interval, within in *. lia.
Qed.

Ltac fills_join H :=
  eapply fills_ext; [exact H|];
  unfold interval; cbn [sizeof sizeof_elem] in *;
  let x := fresh "x" in intros x; lia.

(** ** Byte writes *)

Lemma map_seq_shift {A : Type} (f : nat -> A) (k n l : nat) :
  map f (seq (k + n) l) = map (fun i => f (k + i)%nat) (seq n l).
Proof.
  revert n. induction l as [|l IH]; intros n; [reflexivity|].
  cbn [seq map]. f_equal. rewrite <- IH. now rewrite Nat.add_succ_r.
Qed.

Lemma fill_writes_app a n m v : 0 <= n -> 0 <= m ->
  fill_writes a (n + m) v = fill_writes a n v ++ fill_writes (a + n) m v.
Proof.
  intros Hn Hm. unfold fill_writes.
  rewrite Z2Nat.inj_add, seq_app, map_app by lia. f_equal.
  cbn [Nat.add]. rewrite <- (Nat.add_0_r (Z.to_nat n)) at 1.
  rewrite map_seq_shift. apply map_ext. intros i. f_equal. lia.
Qed.

Lemma byte_writes_fill_store v s : fill_store v s ->
  byte_writes_store s = fill_writes (store_base s) (st_size s) v.
Proof.
  intros [Hpos Hb]. unfold byte_writes_store, fill_writes.
  apply map_ext_in. intros i Hi. apply in_seq in Hi. f_equal.
  apply Hb. lia.
Qed.

Lemma strided_app mk w a (n1 n2 : nat) :
  strided mk w a (n1 + n2) =
  strided mk w a n1 ++ strided mk w (a + w * Z.of_nat n1) n2.
Proof.
  unfold strided. rewrite seq_app, map_app. f_equal. cbn [Nat.add].
  rewrite <- (Nat.add_0_r n1) at 1. rewrite map_seq_shift.
  apply map_ext. intros j. f_equal. lia.
Qed.

Lemma strided_one mk w a : strided mk w a 1 = [mk a].
Proof. unfold strided. cbn. f_equal. f_equal. lia. Qed.

(** ** The relations compose over adjacent ranges *)

Lemma fills_rel_nil v a : fills_rel v a a [].
Proof. apply fills_nil. unfold interval. intros x. lia. Qed.

Lemma fills_rel_app v a b c t1 t2 :
  a <= b -> b <= c ->
  fills_rel v a b t1 -> fills_rel v b c t2 -> fills_rel v a c (t1 ++ t2).
Proof.
  intros Hab Hbc H1 H2. unfold fills_rel in *.
  fills_join (fills_app _ _ _ _ _ H1 H2).
Qed.

Lemma writes_rel_nil v a : writes_rel v a a [].
Proof. unfold writes_rel. now rewrite Z.sub_diag. Qed.

Lemma writes_rel_app v a b c t1 t2 :
  a <= b -> b <= c ->
  writes_rel v a b t1 -> writes_rel v b c t2 -> writes_rel v a c (t1 ++ t2).
Proof.
  unfold writes_rel. intros Hab Hbc H1 H2.
  rewrite byte_writes_app, H1, H2.
  replace (c - a) with ((b - a) + (c - b)) by lia.
  rewrite fill_writes_app by lia. do 2 f_equal. lia.
Qed.

Lemma strided_rel_nil mk w a : strided_rel mk w a a [].
Proof. exists 0%nat. split; [lia|reflexivity]. Qed.

Lemma strided_rel_app mk w a b c t1 t2 :
  a <= b -> b <= c ->
  strided_rel mk w a b t1 -> strided_rel mk w b c t2 ->
  strided_rel mk w a c (t1 ++ t2).
Proof.
  intros _ _ (n1 & Hb & ->) (n2 & Hc & ->). exists (n1 + n2)%nat.
  split; [lia|]. rewrite strided_app. now subst b.
Qed.

Lemma strided_rel_one mk w a : strided_rel mk w a (a + w) [mk a].
Proof. exists 1%nat. split; [lia|]. now rewrite strided_one. Qed.

Lemma all_rel_nil P a : all_rel P a a [].
Proof. constructor. Qed.

Lemma all_rel_app P a b c t1 t2 :
  a <= b -> b <= c ->
  all_rel P a b t1 -> all_rel P b c t2 -> all_rel P a c (t1 ++ t2).
Proof. intros _ _ H1 H2. apply Forall_app. now split. Qed.

(** ** The primitive stores *)

Lemma splat_bytes_byte (n : nat) (value i : Z) :
  0 <= value < 256 -> 0 <= i < Z.of_nat n ->
  Z.land (Z.shiftr (splat_bytes n value) (8 * i)) 255 = value.
Proof.
  intros Hv. revert i. induction n as [|n IH]; intros i Hi; [lia|].
  cbn [splat_bytes]. rewrite Z.shiftr_lor, Z.land_lor_distr_l.
  destruct (Z.eq_dec i 0) as [->|Hne].
  - change 255 with (Z.ones 8). rewrite !Z.land_ones by lia.
    rewrite !Z.shiftr_0_r, Z.shiftl_mul_pow2 by lia.
    rewrite Z.mod_mul by lia. rewrite Z.lor_0_r. apply Z.mod_small. lia.
  - rewrite Z.shiftr_shiftl_r by lia.
    replace (8 * i - 8) with (8 * (i - 1)) by lia.
    rewrite IH by lia.
    rewrite Z.shiftr_div_pow2 by lia.
    rewrite (Z.div_small value); [reflexivity|].
    split; [lia|]. apply Z.lt_le_trans with (2 ^ 8); [lia|].
    apply Z.pow_le_mono_r; lia.
Qed.

Lemma sizeof_elem_pos t : 0 < sizeof_elem t.
Proof. destruct t; reflexivity. Qed.

Lemma fill_store_unit k w value a :
  0 <= value < 256 -> 0 < w -> k <> DcZva ->
  fill_store value (unit_store k w value a).
Proof.
  intros Hv Hw Hk. split; [exact Hw|]. cbn [st_size unit_store]. intros i Hi.
  unfold store_byte. cbn [st_kind st_pattern].
  assert (E : Z.land (Z.shiftr (splat_bytes (Z.to_nat w) value) (8 * i)) 255
              = value) by (apply splat_bytes_byte; lia).
  destruct k; [exact E|exact E|congruence].
Qed.

Lemma fills_unit_store k w value a :
  0 <= value < 256 -> 0 < w -> k <> DcZva ->
  fills value (interval a (a + w)) [unit_store k w value a].
Proof.
  intros Hv Hw Hk.
  pose proof (fills_single value _ (fill_store_unit k w value a Hv Hw Hk)) as H.
  unfold store_base in H. cbn [unit_store st_kind st_addr st_size] in H.
  destruct k; [exact H|exact H|congruence].
Qed.

Lemma writes_unit_store k w value a :
  0 <= value < 256 -> 0 < w -> k <> DcZva ->
  byte_writes [unit_store k w value a] = fill_writes a w value.
Proof.
  intros Hv Hw Hk. cbn [byte_writes flat_map]. rewrite app_nil_r.
  rewrite (byte_writes_fill_store value) by now apply fill_store_unit.
  unfold store_base. cbn [unit_store st_kind st_addr st_size].
  destruct k; [reflexivity|reflexivity|congruence].
Qed.

Lemma wp_store_fills t p value : 0 <= value < 256 ->
  wp (store t p (splat t value))
     (fun _ => fills_rel value p (p + sizeof_elem t)).
Proof.
  intros Hv. apply wp_emit.
  apply (fills_unit_store Unaligned (sizeof_elem t) value p Hv);
    [apply sizeof_elem_pos|discriminate].
Qed.

Lemma wp_store_writes t p value : 0 <= value < 256 ->
  wp (store t p (splat t value))
     (fun _ => writes_rel value p (p + sizeof_elem t)).
Proof.
  intros Hv. apply wp_emit. unfold writes_rel.
  replace (p + sizeof_elem t - p) with (sizeof_elem t) by lia.
  apply (writes_unit_store Unaligned (sizeof_elem t) value p Hv);
    [apply sizeof_elem_pos|discriminate].
Qed.

Lemma wp_store_aligned_fills t dst offset value : 0 <= value < 256 ->
  wp (store_aligned t (splat t value) dst offset)
     (fun _ => fills_rel value (dst + offset) (dst + offset + sizeof_elem t)).
Proof.
  intros Hv. apply wp_emit.
  apply (fills_unit_store AssertAligned (sizeof_elem t) value _ Hv);
    [apply sizeof_elem_pos|discriminate].
Qed.

Lemma wp_BzeroCacheLine_block p : p mod 64 = 0 ->
  wp (BzeroCacheLine_block p) (fun _ => fills_rel 0 p (p + 64)).
Proof.
  intros Hp. apply wp_emit.
  pose proof (fills_single 0 (mkStore DcZva p BzeroCacheLine_SIZE 0)) as H.
  unfold store_base in H. cbn [st_kind st_addr st_size] in H.
  unfold BzeroCacheLine_SIZE in *. rewrite Hp, Z.sub_0_r in H. apply H.
  split; [reflexivity|]. intros i _. reflexivity.
Qed.

(** ** Loop rules

    [R lo hi tr] reads "[tr] is what is issued for the addresses from [lo] to
    [hi]".  Any such relation that holds of the empty trace and composes over
    adjacent ranges is carried through the loops. *)

Section LoopRules.
Variable R : Z -> Z -> list Store -> Prop.
Hypothesis R_nil : forall a, R a a [].
Hypothesis R_app : forall a b c t1 t2,
    a <= b -> b <= c -> R a b t1 -> R b c t2 -> R a c (t1 ++ t2).

Lemma wp_for_each_store t dst pattern (n k : nat) :
  (forall p, wp (store t p pattern) (fun _ => R p (p + sizeof_elem t))) ->
  wp (for_each (seq k n)
        (fun I => store t (dst + Z.of_nat I * sizeof_elem t) pattern))
     (fun _ => R (dst + Z.of_nat k * sizeof_elem t)
                 (dst + Z.of_nat (k + n) * sizeof_elem t)).
Proof.
  intros Hst. pose proof (sizeof_elem_pos t) as Hpos.
  revert k. induction n as [|n IH]; intros k; cbn [seq for_each].
  - apply wp_ret. rewrite Nat.add_0_r. apply R_nil.
  - apply wp_bind. eapply wp_mono; [apply Hst|]. intros [] t1 H1.
    eapply wp_mono; [apply IH|]. intros [] t2 H2. cbv beta in *.
    replace (Z.of_nat (k + S n)) with (Z.of_nat (S k + n)) by lia.
    apply (R_app _ (dst + Z.of_nat (S k) * sizeof_elem t)); try nia.
    + replace (dst + Z.of_nat (S k) * sizeof_elem t)
        with (dst + Z.of_nat k * sizeof_elem t + sizeof_elem t) by lia.
      exact H1.
    + exact H2.
Qed.

Lemma wp_Memset_block_rel T dst value :
  (forall t p,
      wp (store t p (splat t value)) (fun _ => R p (p + sizeof_elem t))) ->
  wp (Memset_block T dst value) (fun _ => R dst (dst + sizeof T)).
Proof.
  intros Hst. destruct T as [t|t n]; cbn [Memset_block sizeof].
  - apply Hst.
  - eapply wp_mono; [apply (wp_for_each_store t dst _ n 0), Hst|].
    intros [] tr H. cbv beta in *. cbn [Nat.add] in H.
    replace (dst + Z.of_nat 0 * sizeof_elem t) with dst in H by lia.
    now rewrite (Z.mul_comm (sizeof_elem t)).
Qed.

Lemma wp_block_loop block SIZE dst count :
  0 < SIZE -> SIZE <= count < size_modulus ->
  (forall j, 0 <= j -> SIZE * j + SIZE <= count ->
     wp (block (dst + SIZE * j))
        (fun _ => R (dst + SIZE * j) (dst + SIZE * j + SIZE))) ->
  forall fuel j,
    0 <= j -> SIZE * j + SIZE <= count -> count - SIZE * j < Z.of_nat fuel ->
    wp (block_loop fuel block SIZE dst count (SIZE * j))
       (fun _ tr => exists n,
            j < n /\ SIZE * n <= count /\ count - SIZE <= SIZE * n /\
            (n = j + 1 \/ SIZE * (n - 1) < count - SIZE) /\
            R (dst + SIZE * j) (dst + SIZE * n) tr).
Proof.
  intros HS Hc Hblock. induction fuel as [|fuel IH]; intros j Hj Hin Hfuel.
  { cbn in Hfuel. lia. }
  cbn [block_loop]. apply wp_bind.
  eapply wp_mono; [apply (Hblock j Hj Hin)|]. intros [] t1 H1.
  rewrite size_add_small, size_sub_small by nia.
  replace (SIZE * j + SIZE) with (SIZE * (j + 1)) in * by lia.
  replace (dst + SIZE * j + SIZE) with (dst + SIZE * (j + 1)) in * by lia.
  destruct (SIZE * (j + 1) <? count - SIZE) eqn:E.
  - apply Z.ltb_lt in E.
    eapply wp_mono; [apply (IH (j + 1)); lia|].
    intros [] t2 (n & Hn1 & Hn2 & Hn3 & Hn4 & Hn5).
    cbv beta. exists n. splits; try lia.
    apply (R_app _ (dst + SIZE * (j + 1))); auto; nia.
  - apply Z.ltb_ge in E. apply wp_ret. exists (j + 1).
    rewrite app_nil_r. splits; try lia. exact H1.
Qed.

Lemma wp_aligned_store_loop store_word kAlign dst count d :
  0 < kAlign -> kAlign <= count < size_modulus -> 0 <= d ->
  (forall j, 0 <= j -> d + kAlign * j < count - kAlign ->
     wp (store_word dst (d + kAlign * j))
        (fun _ => R (dst + (d + kAlign * j))
                    (dst + (d + kAlign * j) + kAlign))) ->
  forall fuel j,
    0 <= j -> d + kAlign * j <= count ->
    count - (d + kAlign * j) < Z.of_nat fuel ->
    wp (aligned_store_loop fuel store_word kAlign dst count (d + kAlign * j))
       (fun o tr => exists n,
            j <= n /\ o = d + kAlign * n /\ o <= count /\
            count - kAlign <= o /\
            (n = j \/ d + kAlign * (n - 1) < count - kAlign) /\
            R (dst + (d + kAlign * j)) (dst + o) tr).
Proof.
  intros HK Hc Hd Hstore.
  induction fuel as [|fuel IH]; intros j Hj Hin Hfuel.
  { cbn in Hfuel. lia. }
  cbn [aligned_store_loop]. rewrite size_sub_small by lia.
  destruct (d + kAlign * j <? count - kAlign) eqn:E.
  - apply Z.ltb_lt in E. apply wp_bind.
    eapply wp_mono; [apply (Hstore j Hj E)|]. intros [] t1 H1.
    rewrite size_add_small by nia.
    replace (d + kAlign * j + kAlign) with (d + kAlign * (j + 1)) by lia.
    replace (dst + (d + kAlign * j) + kAlign)
      with (dst + (d + kAlign * (j + 1))) in H1 by lia.
    eapply wp_mono; [apply (IH (j + 1)); lia|].
    intros o t2 (n & Hn1 & Hn2 & Hn3 & Hn4 & Hn5 & Hn6).
    cbv beta. exists n. splits; try lia.
    apply (R_app _ (dst + (d + kAlign * (j + 1)))); auto; nia.
  - apply Z.ltb_ge in E. apply wp_ret. exists j.
    splits; try lia. apply R_nil.
Qed.

Lemma wp_byte_per_byte dst value count :
  0 <= count < size_modulus ->
  (forall o, 0 <= o < count ->
     wp (Memset_block (Elem uint8_t) (dst + o) value)
        (fun _ => R (dst + o) (dst + o + 1))) ->
  forall fuel o,
    0 <= o <= count -> count - o < Z.of_nat fuel ->
    wp (inline_memset_byte_per_byte fuel dst value count o)
       (fun _ => R (dst + o) (dst + count)).
Proof.
  intros Hc Hblock. induction fuel as [|fuel IH]; intros o Ho Hfuel.
  { cbn in Hfuel. lia. }
  cbn [inline_memset_byte_per_byte].
  destruct (o <? count) eqn:E.
  - apply Z.ltb_lt in E. apply wp_bind.
    eapply wp_mono; [apply (Hblock o); lia|]. intros [] t1 H1.
    rewrite size_add_small by lia.
    eapply wp_mono; [apply (IH (o + 1)); lia|]. intros [] t2 H2.
    cbv beta in *.
    replace (dst + o + 1) with (dst + (o + 1)) in H1 by lia.
    apply (R_app _ (dst + (o + 1))); auto; lia.
  - apply Z.ltb_ge in E. apply wp_ret.
    replace count with o by lia. apply R_nil.
Qed.
End LoopRules.

(** ** Footprints of the collaborators *)

Lemma wp_Memset_block T dst value : 0 <= value < 256 ->
  wp (Memset_block T dst value)
     (fun _ => fills value (interval dst (dst + sizeof T))).
Proof.
  intros Hv.
  apply (wp_Memset_block_rel (fills_rel value)
           (fills_rel_nil value) (fills_rel_app value)).
  intros t p. now apply wp_store_fills.
Qed.

Ltac wp_block Hv :=
  eapply wp_mono; [apply wp_Memset_block; exact Hv|];
  let t := fresh "t" in let H := fresh "Hfill" in
  intros [] t H; cbv beta in *.

Lemma wp_byte_per_byte_fills fuel dst value count o :
  0 <= value < 256 -> 0 <= count < size_modulus ->
  0 <= o <= count -> count - o < Z.of_nat fuel ->
  wp (inline_memset_byte_per_byte fuel dst value count o)
     (fun _ => fills value (interval (dst + o) (dst + count))).
Proof.
  intros Hv Hc Ho Hf.
  apply (wp_byte_per_byte (fills_rel value)
           (fills_rel_nil value) (fills_rel_app value)
           dst value count Hc); [|exact Ho|exact Hf].
  intros o' Ho'. wp_block Hv. exact Hfill.
Qed.

Lemma wp_Memset_tail T dst value count : 0 <= value < 256 ->
  wp (Memset_tail T dst value count)
     (fun _ => fills value (interval (dst + count - sizeof T) (dst + count))).
Proof.
  intros Hv. unfold Memset_tail. wp_block Hv. fills_join Hfill.
Qed.

Lemma wp_Memset_head_tail T dst value count :
  0 <= value < 256 -> sizeof T <= count <= 2 * sizeof T ->
  wp (Memset_head_tail T dst value count)
     (fun _ => fills value (interval dst (dst + count))).
Proof.
  intros Hv Hc. unfold Memset_head_tail. apply wp_bind. wp_block Hv.
  eapply wp_mono; [apply wp_Memset_tail, Hv|]. intros [] t2 H2. cbv beta in *.
  fills_join (fills_app _ _ _ _ _ Hfill H2).
Qed.

Lemma wp_Memset_loop_and_tail fuel T dst value count :
  0 <= value < 256 -> 0 < sizeof T -> sizeof T <= count < size_modulus ->
  count < Z.of_nat fuel ->
  wp (Memset_loop_and_tail fuel T dst value count)
     (fun _ => fills value (interval dst (dst + count))).
Proof.
  intros Hv HT Hc Hf. unfold Memset_loop_and_tail. apply wp_bind.
  replace 0 with (sizeof T * 0) at 1 by lia.
  eapply wp_mono.
  { apply (wp_block_loop (fills_rel value)
             (fills_rel_app value) _ (sizeof T) dst count HT Hc);
      [|lia|lia|lia].
    intros j Hj Hin. wp_block Hv. exact Hfill. }
  intros [] t1 (n & Hn1 & Hn2 & Hn3 & _ & H1). cbv beta.
  eapply wp_mono; [apply wp_Memset_tail, Hv|]. intros [] t2 H2. cbv beta in *.
  unfold fills_rel in H1.
  eapply fills_ext; [apply (fills_app _ _ _ _ _ H1 H2)|].
  unfold interval. intros x. nia.
Qed.

Lemma wp_BzeroCacheLine_loop_and_tail fuel dst count :
  dst mod 64 = 0 -> 64 <= count < size_modulus -> count < Z.of_nat fuel ->
  wp (BzeroCacheLine_loop_and_tail fuel dst 0 count)
     (fun _ => fills 0 (interval dst (dst + count))).
Proof.
  intros Hd Hc Hf. unfold BzeroCacheLine_loop_and_tail, BzeroCacheLine_SIZE.
  apply wp_bind.
  change (block_loop fuel BzeroCacheLine_block 64 dst count 0)
    with (block_loop fuel BzeroCacheLine_block 64 dst count (64 * 0)).
  eapply wp_mono.
  { apply (wp_block_loop (fills_rel 0)
             (fills_rel_app 0) _ 64 dst count); try lia.
    intros j Hj Hin. apply wp_BzeroCacheLine_block.
    rewrite (Z.mul_comm 64 j), Z.mod_add by lia. exact Hd. }
  intros [] t1 (n & Hn1 & Hn2 & Hn3 & _ & H1). cbv beta.
  eapply wp_mono; [apply wp_Memset_tail; lia|]. intros [] t2 H2. cbv beta in *.
  unfold fills_rel in H1.
  fills_join (fills_app _ _ _ _ _ H1 H2).
Qed.

(** ** Alignment helpers *)

Lemma distance_to_align_down_mod k ptr : 0 <= k ->
  distance_to_align_down (2 ^ k) ptr = ptr mod 2 ^ k.
Proof.
  intros Hk. unfold distance_to_align_down.
  rewrite <- Z.land_ones by exact Hk. f_equal.
  rewrite Z.ones_equiv. lia.
Qed.

Lemma distance_to_align_up_mod k ptr : 0 <= k <= 64 ->
  distance_to_align_up (2 ^ k) ptr = (- ptr) mod 2 ^ k.
Proof.
  intros Hk. unfold distance_to_align_up, size_neg, size_wrap, size_modulus.
  replace (2 ^ k - 1) with (Z.ones k) by (rewrite Z.ones_equiv; lia).
  rewrite Z.land_ones by lia.
  replace (2 ^ 64) with (2 ^ k * 2 ^ (64 - k))
    by (rewrite <- Z.pow_add_r by lia; f_equal; lia).
  assert (0 < 2 ^ k) by (apply Z.pow_pos_nonneg; lia).
  assert (0 < 2 ^ (64 - k)) by (apply Z.pow_pos_nonneg; lia).
  rewrite Z.rem_mul_r by lia.
  rewrite (Z.mul_comm (2 ^ k)), Z.mod_add by lia.
  apply Z.mod_mod. lia.
Qed.

Lemma distance_to_align_up_spec k ptr : 0 <= k <= 64 ->
  let d := distance_to_align_up (2 ^ k) ptr in
  0 <= d < 2 ^ k /\ (ptr + d) mod 2 ^ k = 0.
Proof.
  intros Hk d. subst d. rewrite distance_to_align_up_mod by exact Hk.
  assert (H : 0 < 2 ^ k) by (apply Z.pow_pos_nonneg; lia).
  split; [apply Z.mod_pos_bound, H|].
  rewrite Z.add_mod_idemp_r by lia.
  replace (ptr + - ptr) with 0 by lia. apply Z.mod_0_l. lia.
Qed.

Lemma align_to_next_boundary_spec k p1 count :
  0 <= k -> 2 ^ k <= count < size_modulus ->
  let '(p, c) := align_to_next_boundary (2 ^ k) p1 count in
  p = p1 + (2 ^ k - p1 mod 2 ^ k) /\
  p1 < p <= p1 + 2 ^ k /\ p mod 2 ^ k = 0 /\ c = count - (p - p1) /\
  count - 2 ^ k <= c < count.
Proof.
  intros Hk Hc. unfold align_to_next_boundary, distance_to_next_aligned.
  rewrite distance_to_align_down_mod by exact Hk.
  assert (H : 0 < 2 ^ k) by (apply Z.pow_pos_nonneg; lia).
  pose proof (Z.mod_pos_bound p1 (2 ^ k) H) as Hm.
  rewrite size_sub_small by lia. splits; try lia.
  replace (p1 + (2 ^ k - p1 mod 2 ^ k))
    with (p1 - p1 mod 2 ^ k + 1 * 2 ^ k) by lia.
  rewrite Z.mod_add by lia.
  rewrite Zminus_mod_idemp_r, Z.sub_diag. apply Z.mod_0_l. lia.
Qed.

(** Splits [align_to_next_boundary] into its two results, with their facts. *)
Ltac align_cases k SIZE dst count :=
  let HA := fresh "HA" in
  pose proof (align_to_next_boundary_spec k dst count) as HA;
  change (2 ^ k) with SIZE in HA;
  specialize (HA ltac:(lia) ltac:(lia));
  let p := fresh "p" in let c := fresh "c" in
  destruct (align_to_next_boundary SIZE dst count) as [p c];
  let Hp0 := fresh "Hp0" in let Hp1 := fresh "Hp1" in
  let Hp2 := fresh "Hp2" in let Hp3 := fresh "Hp3" in
  let Hp4 := fresh "Hp4" in
  destruct HA as (Hp0 & Hp1 & Hp2 & Hp3 & Hp4).

(** ** Footprints of the strategies *)

Lemma inline_memset_aligned_access_32bit_unfold fuel dst value count :
  inline_memset_aligned_access_32bit fuel dst value count =
  if count <=? 8 then inline_memset_byte_per_byte fuel dst value count 0
  else aligned_access_body fuel uint32_t dst value count.
Proof. reflexivity. Qed.

Lemma inline_memset_aligned_access_64bit_unfold fuel dst value count :
  inline_memset_aligned_access_64bit fuel dst value count =
  if count <=? 16 then inline_memset_byte_per_byte fuel dst value count 0
  else aligned_access_body fuel uint64_t dst value count.
Proof. reflexivity. Qed.

Lemma wp_aligned_access_body fuel t k dst value count :
  sizeof_elem t = 2 ^ k -> 0 <= k <= 64 ->
  0 <= value < 256 -> 2 * sizeof_elem t < count < size_modulus ->
  count < Z.of_nat fuel ->
  wp (aligned_access_body fuel t dst value count)
     (fun _ => fills value (interval dst (dst + count))).
Proof.
  intros Ht Hk Hv Hc Hf. unfold aligned_access_body.
  pose proof (sizeof_elem_pos t) as Hpos.
  destruct (distance_to_align_up_spec k dst Hk) as [Hd _].
  rewrite <- Ht in Hd. set (d := distance_to_align_up (sizeof_elem t) dst) in *.
  apply wp_bind.
  eapply wp_mono; [apply (wp_byte_per_byte_fills fuel dst value d 0); lia|].
  intros [] t1 H1. cbv beta.
  apply wp_bind.
  replace d with (d + sizeof_elem t * 0) at 1 by lia.
  eapply wp_mono.
  { apply (wp_aligned_store_loop (fills_rel value)
             (fills_rel_nil value) (fills_rel_app value)
             _ (sizeof_elem t) dst count d); try lia.
    intros j Hj Hin. apply wp_store_aligned_fills, Hv. }
  intros o t2 (n & Hn1 & Hn2 & Hn3 & Hn4 & _ & H2). cbv beta.
  eapply wp_mono; [apply (wp_byte_per_byte_fills fuel dst value count o); nia|].
  intros [] t3 H3. cbv beta. unfold fills_rel in H2.
  replace (d + sizeof_elem t * 0) with d in H2 by lia.
  eapply fills_ext;
    [apply (fills_app _ _ _ _ _ H1 (fills_app _ _ _ _ _ H2 H3))|].
  unfold interval. intros x. nia.
Qed.

Lemma wp_inline_memset_aligned_access_32bit fuel dst value count :
  0 <= value < 256 -> 0 <= count < size_modulus -> count < Z.of_nat fuel ->
  wp (inline_memset_aligned_access_32bit fuel dst value count)
     (fun _ => fills value (interval dst (dst + count))).
Proof.
  intros Hv Hc Hf. rewrite inline_memset_aligned_access_32bit_unfold.
  destruct (count <=? 8) eqn:E.
  - eapply wp_mono; [apply wp_byte_per_byte_fills; try eassumption; lia|].
    intros [] tr H. fills_join H.
  - apply Z.leb_gt in E.
    apply (wp_aligned_access_body fuel uint32_t 2);
      [reflexivity|lia|exact Hv|cbn [sizeof_elem]; lia|exact Hf].
Qed.

Lemma wp_inline_memset_aligned_access_64bit fuel dst value count :
  0 <= value < 256 -> 0 <= count < size_modulus -> count < Z.of_nat fuel ->
  wp (inline_memset_aligned_access_64bit fuel dst value count)
     (fun _ => fills value (interval dst (dst + count))).
Proof.
  intros Hv Hc Hf. rewrite inline_memset_aligned_access_64bit_unfold.
  destruct (count <=? 16) eqn:E.
  - eapply wp_mono; [apply wp_byte_per_byte_fills; try eassumption; lia|].
    intros [] tr H. fills_join H.
  - apply Z.leb_gt in E.
    apply (wp_aligned_access_body fuel uint64_t 3);
      [reflexivity|lia|exact Hv|cbn [sizeof_elem]; lia|exact Hf].
Qed.

Lemma sizeof_uint128_t e : sizeof (X86.uint128_t e) = 16.
Proof. now destruct e. Qed.
Lemma sizeof_uint256_t e : sizeof (X86.uint256_t e) = 32.
Proof. now destruct e. Qed.
Lemma sizeof_uint512_t e : sizeof (X86.uint512_t e) = 64.
Proof. now destruct e. Qed.

(** Turns the boolean tests of a dispatcher into arithmetic facts. *)
Ltac tier_cases :=
  repeat match goal with
    | |- wp (if ?a =? ?b then _ else _) _ =>
        let E := fresh "E" in
        destruct (a =? b) eqn:E;
        [apply Z.eqb_eq in E|apply Z.eqb_neq in E]
    | |- wp (if ?a <=? ?b then _ else _) _ =>
        let E := fresh "E" in
        destruct (a <=? b) eqn:E;
        [apply Z.leb_le in E|apply Z.leb_gt in E]
    | |- wp (if ?a <? ?b then _ else _) _ =>
        let E := fresh "E" in
        destruct (a <? b) eqn:E;
        [apply Z.ltb_lt in E|apply Z.ltb_ge in E]
    end.

Lemma wp_inline_memset_x86 fuel e dst value count :
  0 <= value < 256 -> 0 <= count < size_modulus -> count < Z.of_nat fuel ->
  wp (inline_memset_x86 fuel e dst value count)
     (fun _ => fills value (interval dst (dst + count))).
Proof.
  intros Hv Hc Hf. unfold inline_memset_x86.
  pose proof (sizeof_uint128_t e) as S128.
  pose proof (sizeof_uint256_t e) as S256.
  pose proof (sizeof_uint512_t e) as S512.
  tier_cases;
    try (apply wp_Memset_head_tail;
         [exact Hv|rewrite ?S128, ?S256, ?S512; cbn [sizeof sizeof_elem]; lia]).
  - apply wp_ret, fills_nil. unfold interval. intros x. lia.
  - wp_block Hv. fills_join Hfill.
  - wp_block Hv. fills_join Hfill.
  - unfold MemsetSequence_block. apply wp_bind. wp_block Hv. wp_block Hv.
    fills_join (fills_app _ _ _ _ _ Hfill Hfill0).
  - apply wp_bind. wp_block Hv. align_cases 5 32 dst count.
    eapply wp_mono;
      [apply (wp_Memset_loop_and_tail fuel _ p value c Hv); lia|].
    intros [] t2 H2. cbv beta.
    fills_join (fills_app _ _ _ _ _ Hfill H2).
Qed.

Lemma wp_inline_memset_aarch64 fuel hasZva dst value count :
  0 <= value < 256 -> 0 <= count < size_modulus -> count < Z.of_nat fuel ->
  wp (inline_memset_aarch64 fuel hasZva dst value count)
     (fun _ => fills value (interval dst (dst + count))).
Proof.
  intros Hv Hc Hf. unfold inline_memset_aarch64.
  unfold AArch64.uint128_t, AArch64.uint256_t, AArch64.uint512_t.
  tier_cases;
    try (apply wp_Memset_head_tail;
         [exact Hv|cbn [sizeof sizeof_elem]; lia]).
  - apply wp_ret, fills_nil. unfold interval. intros x. lia.
  - apply wp_bind. wp_block Hv. tier_cases.
    + eapply wp_mono; [apply wp_Memset_tail, Hv|]. intros [] t2 H2.
      fills_join (fills_app _ _ _ _ _ Hfill H2).
    + apply wp_ret. rewrite app_nil_r. fills_join Hfill.
  - apply wp_bind. wp_block Hv. tier_cases.
    + eapply wp_mono; [apply wp_Memset_tail, Hv|]. intros [] t2 H2.
      fills_join (fills_app _ _ _ _ _ Hfill H2).
    + apply wp_bind. wp_block Hv.
      eapply wp_mono; [apply wp_Memset_tail, Hv|]. intros [] t3 H3.
      fills_join (fills_app _ _ _ _ _ Hfill (fills_app _ _ _ _ _ Hfill0 H3)).
  - destruct ((448 <=? count) && (value =? 0) && hasZva) eqn:Z.
    + apply andb_true_iff in Z. destruct Z as [Z _].
      apply andb_true_iff in Z. destruct Z as [Z1 Z2].
      apply Z.leb_le in Z1. apply Z.eqb_eq in Z2. subst value.
      apply wp_bind. wp_block Hv. align_cases 6 64 dst count.
      eapply wp_mono;
        [apply (wp_BzeroCacheLine_loop_and_tail fuel p c Hp2); lia|].
      intros [] t2 H2. cbv beta.
      fills_join (fills_app _ _ _ _ _ Hfill H2).
    + apply wp_bind. wp_block Hv. align_cases 4 16 dst count.
      eapply wp_mono;
        [apply (wp_Memset_loop_and_tail fuel _ p value c Hv);
         cbn [sizeof sizeof_elem]; lia|].
      intros [] t2 H2. cbv beta.
      fills_join (fills_app _ _ _ _ _ Hfill H2).
Qed.

Lemma wp_inline_memset fuel target dst value count :
  0 <= value < 256 -> 0 <= count < size_modulus -> count < Z.of_nat fuel ->
  wp (inline_memset fuel target dst value count)
     (fun _ => fills value (interval dst (dst + count))).
Proof.
  intros Hv Hc Hf. destruct target as [e|z| | |]; cbn [inline_memset].
  - now apply wp_inline_memset_x86.
  - now apply wp_inline_memset_aarch64.
  - now apply wp_inline_memset_aligned_access_64bit.
  - now apply wp_inline_memset_aligned_access_32bit.
  - eapply wp_mono; [apply wp_byte_per_byte_fills; try eassumption; lia|].
    intros [] tr H. fills_join H.
Qed.

(** ** The model on concrete calls *)

Example x86_count_5 :
  inline_memset_x86 0 AVX 1000 7 5 =
  Some (tt, [unit_store Unaligned 4 7 1000; unit_store Unaligned 4 7 1001]).
Proof. reflexivity. Qed.

Example x86_count_20_scalar_build :
  option_map (fun r => map (fun s => (st_addr s, st_size s)) (snd r))
             (inline_memset_x86 0 NoVector 1000 7 20) =
  Some [(1000, 8); (1008, 8); (1004, 8); (1012, 8)].
Proof. reflexivity. Qed.

Example x86_count_200 :
  option_map (fun r => map (fun s => (st_addr s, st_size s)) (snd r))
             (inline_memset_x86 10 AVX 1001 7 200) =
  Some [(1001, 32); (1024, 32); (1056, 32); (1088, 32); (1120, 32);
        (1152, 32); (1169, 32)].
Proof. reflexivity. Qed.

Example aarch64_zero_500 :
  option_map (fun r => map (fun s => (st_kind s, st_addr s)) (snd r))
             (inline_memset_aarch64 10 true 1001 0 500) =
  Some [(Unaligned, 1001); (DcZva, 1024); (DcZva, 1088); (DcZva, 1152);
        (DcZva, 1216); (DcZva, 1280); (DcZva, 1344); (DcZva, 1408);
        (Unaligned, 1437)].
Proof. reflexivity. Qed.

Example aligned_access_32bit_21 :
  option_map (fun r => map (fun s => (st_kind s, st_addr s, st_size s)) (snd r))
             (inline_memset_aligned_access_32bit 30 1001 1 21) =
  Some [(Unaligned, 1001, 1); (Unaligned, 1002, 1); (Unaligned, 1003, 1);
        (AssertAligned, 1004, 4); (AssertAligned, 1008, 4);
        (AssertAligned, 1012, 4); (AssertAligned, 1016, 4);
        (Unaligned, 1020, 1); (Unaligned, 1021, 1)].
Proof. reflexivity. Qed.

Example splat_uint32 : splat uint32_t 171 = 2880154539.
Proof. reflexivity. Qed.

(** * The claims *)

(** C1. For every target and every call [inline_memset dst value count] on a
    valid byte range, the call returns (given fuel for its loops), every byte
    of [dst, dst + count) then holds [value], and every byte outside that
    range is unchanged. *)
Theorem inline_memset_fills_range fuel target dst value count (m : Mem) :
  0 <= value < 256 -> valid_range dst count -> count < Z.of_nat fuel ->
  exists tr,
    inline_memset fuel target dst value count = Some (tt, tr) /\
    (forall x, dst <= x < dst + count -> exec tr m x = value) /\
    (forall x, ~ (dst <= x < dst + count) -> exec tr m x = m x).
Proof.
  intros Hv (Hd & Hc & Hend) Hf.
  destruct (wp_result _ _ (wp_inline_memset fuel target dst value count Hv Hc Hf))
    as (tr & Heq & Hfill).
  exists tr. split; [exact Heq|]. split; intros x Hx.
  - now apply (fills_exec _ _ _ m x Hfill).
  - now apply (fills_exec _ _ _ m x Hfill).
Qed.

Lemma inline_memset_fills_range_witness :
  exists tr,
    inline_memset 40 (LIBC_TARGET_ARCH_IS_X86 SSE2) 1001 7 37 = Some (tt, tr) /\
    (forall x, 1001 <= x < 1001 + 37 -> exec tr (fun _ => 0) x = 7) /\
    (forall x, ~ (1001 <= x < 1001 + 37) -> exec tr (fun _ => 0) x = 0).
Proof.
  apply (inline_memset_fills_range 40 (LIBC_TARGET_ARCH_IS_X86 SSE2)
           1001 7 37 (fun _ => 0)).
  - lia.
  - unfold valid_range, size_modulus. lia.
  - cbn. lia.
Defined.

(** ** Byte writes of blocks *)

Lemma wp_Memset_block_writes T dst value : 0 <= value < 256 ->
  wp (Memset_block T dst value)
     (fun _ tr => byte_writes tr = fill_writes dst (sizeof T) value).
Proof.
  intros Hv.
  eapply wp_mono.
  { apply (wp_Memset_block_rel (writes_rel value)
             (writes_rel_nil value) (writes_rel_app value)).
    intros t p. now apply wp_store_writes. }
  intros [] tr H. unfold writes_rel in H. rewrite H. f_equal. lia.
Qed.

Lemma wp_Memset_head_tail_writes T dst value count : 0 <= value < 256 ->
  wp (Memset_head_tail T dst value count)
     (fun _ tr => byte_writes tr =
                  fill_writes dst (sizeof T) value ++
                  fill_writes (dst + count - sizeof T) (sizeof T) value).
Proof.
  intros Hv. unfold Memset_head_tail, Memset_tail. apply wp_bind.
  eapply wp_mono; [apply wp_Memset_block_writes, Hv|]. intros [] t1 H1.
  eapply wp_mono; [apply wp_Memset_block_writes, Hv|]. intros [] t2 H2.
  cbv beta in *. now rewrite byte_writes_app, H1, H2.
Qed.

(** C6. For a head+tail tier of any width [w = sizeof T] and any count with
    [w <= count <= 2 * w]: the byte writes are exactly the [w] bytes from
    offset 0 followed by the [w] bytes from offset [count - w], all of them
    [value]; every byte of [0, count) is written, no store leaves the range,
    and the resulting memory is that of the byte-per-byte reference fill. *)
Theorem head_tail_equals_reference_fill T dst value count :
  0 <= value < 256 -> sizeof T <= count <= 2 * sizeof T ->
  count < size_modulus ->
  exists tr ref,
    Memset_head_tail T dst value count = Some (tt, tr) /\
    inline_memset_byte_per_byte (S (Z.to_nat count)) dst value count 0
      = Some (tt, ref) /\
    byte_writes tr =
      fill_writes dst (sizeof T) value ++
      fill_writes (dst + count - sizeof T) (sizeof T) value /\
    (forall x, dst <= x < dst + count -> writes tr x = true) /\
    Forall (within dst count) tr /\
    (forall m x, exec tr m x = exec ref m x).
Proof.
  intros Hv Hc Hmax.
  assert (H0 : 0 <= count).
  { destruct T as [t|t n]; cbn [sizeof] in Hc;
      pose proof (sizeof_elem_pos t); nia. }
  pose proof (wp_conj _ _ _
                (wp_Memset_head_tail T dst value count Hv Hc)
                (wp_Memset_head_tail_writes T dst value count Hv)) as Hht.
  apply wp_result in Hht. destruct Hht as (tr & Htr & Hfill & Hbw).
  assert (Href : wp (inline_memset_byte_per_byte (S (Z.to_nat count))
                       dst value count 0)
                    (fun _ => fills value (interval (dst + 0) (dst + count))))
    by (apply wp_byte_per_byte_fills; lia).
  apply wp_result in Href. destruct Href as (ref & Href & Hfill').
  exists tr, ref. splits; auto.
  - intros x Hx. now apply Hfill.
  - now apply (fills_within value).
  - intros m x. apply (fills_exec_eq value (interval dst (dst + count)));
      [exact Hfill|]. fills_join Hfill'.
Qed.

Lemma head_tail_equals_reference_fill_witness :
  exists tr ref,
    Memset_head_tail (Elem uint64_t) 1000 171 13 = Some (tt, tr) /\
    inline_memset_byte_per_byte (S (Z.to_nat 13)) 1000 171 13 0
      = Some (tt, ref) /\
    byte_writes tr =
      fill_writes 1000 (sizeof (Elem uint64_t)) 171 ++
      fill_writes (1000 + 13 - sizeof (Elem uint64_t))
                  (sizeof (Elem uint64_t)) 171 /\
    (forall x, 1000 <= x < 1000 + 13 -> writes tr x = true) /\
    Forall (within 1000 13) tr /\
    (forall m x, exec tr m x = exec ref m x).
Proof.
  apply (head_tail_equals_reference_fill (Elem uint64_t) 1000 171 13).
  - lia.
  - cbn. lia.
  - reflexivity.
Defined.

(** C7. Whatever the target, the destination and the value, a call with
    [count = 0] returns without issuing any store, so memory is left as it
    was. *)
Theorem count_zero_is_noop fuel target dst value :
  inline_memset (S fuel) target dst value 0 = Some (tt, []) /\
  forall m : Mem, exec [] m = m.
Proof.
  split; [|reflexivity].
  destruct target as [e|z| | |]; reflexivity.
Qed.

(** C8. On AArch64, for [count] in 1..3 the trace is one 8-bit store at
    [dst], followed by one 16-bit store at [dst + count - 2] exactly when
    [count > 1]; these stores write [value] to exactly the bytes of
    [dst, dst + count). *)
Theorem aarch64_counts_1_to_3 fuel hasZva dst value count :
  0 <= value < 256 -> 1 <= count <= 3 ->
  let tr := unit_store Unaligned 1 value dst ::
            (if 1 <? count
             then [unit_store Unaligned 2 value (dst + count - 2)]
             else []) in
  inline_memset_aarch64 fuel hasZva dst value count = Some (tt, tr) /\
  fills value (interval dst (dst + count)) tr.
Proof.
  intros Hv Hc tr.
  assert (Heq : inline_memset_aarch64 fuel hasZva dst value count
                = Some (tt, tr)).
  { assert (Hk : count = 1 \/ count = 2 \/ count = 3) by lia.
    destruct Hk as [->|[->| ->]]; reflexivity. }
  split; [exact Heq|].
  assert (Hfuel : inline_memset_aarch64 4 hasZva dst value count
                  = Some (tt, tr)).
  { assert (Hk : count = 1 \/ count = 2 \/ count = 3) by lia.
    destruct Hk as [->|[->| ->]]; reflexivity. }
  assert (Hsmall : 0 <= count < size_modulus) by (unfold size_modulus; lia).
  assert (Hfour : count < Z.of_nat 4) by (cbn; lia).
  pose proof (wp_inline_memset_aarch64 4 hasZva dst value count
                Hv Hsmall Hfour) as H.
  rewrite Hfuel in H. exact H.
Qed.

Lemma aarch64_counts_1_to_3_witness :
  let tr := unit_store Unaligned 1 9 500 ::
            (if 1 <? 3 then [unit_store Unaligned 2 9 (500 + 3 - 2)] else []) in
  inline_memset_aarch64 0 true 500 9 3 = Some (tt, tr) /\
  fills 9 (interval 500 (500 + 3)) tr.
Proof.
  apply (aarch64_counts_1_to_3 0 true 500 9 3); lia.
Defined.

(** ** Closed forms of the scalar loops *)

Lemma strided_Forall (P : Store -> Prop) mk w a (n : nat) :
  (forall j : nat, (j < n)%nat -> P (mk (a + w * Z.of_nat j))) ->
  Forall P (strided mk w a n).
Proof.
  intros H. unfold strided. apply Forall_forall. intros s Hs.
  apply in_map_iff in Hs. destruct Hs as (j & <- & Hj).
  apply in_seq in Hj. apply H. lia.
Qed.

Lemma wp_byte_per_byte_trace fuel dst value count o :
  0 <= count < size_modulus -> 0 <= o <= count ->
  count - o < Z.of_nat fuel ->
  wp (inline_memset_byte_per_byte fuel dst value count o)
     (fun _ tr => tr = byte_fill dst value o count).
Proof.
  intros Hc Ho Hf. eapply wp_mono.
  { apply (wp_byte_per_byte (strided_rel (unit_store Unaligned 1 value) 1)
             (strided_rel_nil _ 1) (strided_rel_app _ 1)
             dst value count Hc); [|exact Ho|exact Hf].
    intros o' Ho'.
    exact (strided_rel_one (unit_store Unaligned 1 value) 1 (dst + o')). }
  intros [] tr (n & Hn & ->). unfold byte_fill. f_equal. lia.
Qed.

Lemma wp_aligned_store_loop_trace fuel t dst value count d :
  sizeof_elem t <= count < size_modulus -> 0 <= d <= count ->
  count - d < Z.of_nat fuel ->
  let w := sizeof_elem t in
  wp (aligned_store_loop fuel (store_aligned t (splat t value)) w dst count d)
     (fun o tr => exists n : nat,
          o = d + w * Z.of_nat n /\ tr = word_fill w dst value d n /\
          count - w <= o <= count /\
          (n = 0%nat \/ d + w * (Z.of_nat n - 1) < count - w)).
Proof.
  intros Hc Hd Hf w. pose proof (sizeof_elem_pos t) as Hpos. fold w in Hpos, Hc.
  replace d with (d + w * 0) at 1 by lia.
  eapply wp_mono.
  { apply (wp_aligned_store_loop
             (strided_rel (unit_store AssertAligned w value) w)
             (strided_rel_nil _ w) (strided_rel_app _ w)
             _ w dst count d); try lia.
    intros j Hj Hin.
    exact (strided_rel_one (unit_store AssertAligned w value) w
             (dst + (d + w * j))). }
  intros o tr (n & Hn1 & Hn2 & Hn3 & Hn4 & Hn5 & (n0 & Hn0 & ->)). cbv beta.
  assert (Hnn : n = Z.of_nat n0) by nia. subst n.
  exists n0. splits; try lia.
  unfold word_fill. f_equal. lia.
Qed.

Lemma aligned_access_body_trace fuel t k dst value count :
  sizeof_elem t = 2 ^ k -> 0 <= k <= 64 ->
  2 * sizeof_elem t < count < size_modulus -> count < Z.of_nat fuel ->
  let w := sizeof_elem t in
  let d := distance_to_align_up w dst in
  exists n : nat,
    let o := d + w * Z.of_nat n in
    aligned_access_body fuel t dst value count =
      Some (tt, byte_fill dst value 0 d ++ word_fill w dst value d n
                  ++ byte_fill dst value o count) /\
    0 <= d < w /\ (dst + d) mod w = 0 /\
    (0 < n)%nat /\ count - w <= o < count /\ o - w < count - w.
Proof.
  intros Ht Hk Hc Hf w d.
  pose proof (sizeof_elem_pos t) as Hpos.
  destruct (distance_to_align_up_spec k dst Hk) as [Hd Hmod].
  rewrite <- Ht in Hd, Hmod. fold w in Hd, Hmod, Hpos, Hc. fold d in Hd, Hmod.
  assert (Hwp : wp (aligned_access_body fuel t dst value count)
    (fun _ tr => exists n : nat,
         tr = byte_fill dst value 0 d ++ word_fill w dst value d n
                ++ byte_fill dst value (d + w * Z.of_nat n) count /\
         (0 < n)%nat /\ count - w <= d + w * Z.of_nat n < count)).
  { unfold aligned_access_body. fold w. fold d. apply wp_bind.
    eapply wp_mono;
      [apply (wp_byte_per_byte_trace fuel dst value d 0); lia|].
    intros [] t1 ->. cbv beta. apply wp_bind.
    eapply wp_mono;
      [apply (wp_aligned_store_loop_trace fuel t dst value count d); lia|].
    intros o t2 (n & -> & -> & Hn1 & Hn2). cbv beta.
    eapply wp_mono;
      [apply (wp_byte_per_byte_trace fuel dst value count
                (d + sizeof_elem t * Z.of_nat n)); fold w; lia|].
    intros [] t3 ->. cbv beta. exists n. fold w. splits; try reflexivity; lia. }
  apply wp_result in Hwp. destruct Hwp as (tr & Heq & n & -> & Hn1 & Hn2).
  exists n. cbv zeta. splits; auto; lia.
Qed.

Lemma byte_fill_Forall (P : Store -> Prop) dst value lo hi :
  (forall a, P (unit_store Unaligned 1 value a)) ->
  Forall P (byte_fill dst value lo hi).
Proof. intros H. apply strided_Forall. intros j _. apply H. Qed.

Lemma aligned_access_body_shape fuel t k dst value count :
  sizeof_elem t = 2 ^ k -> 0 <= k <= 64 ->
  2 * sizeof_elem t < count < size_modulus -> count < Z.of_nat fuel ->
  aligned_access_shape (aligned_access_body fuel t dst value count)
    (inline_memset_byte_per_byte fuel dst value count 0)
    (sizeof_elem t) dst value count.
Proof.
  intros Ht Hk Hc Hf. unfold aligned_access_shape.
  destruct (count <=? 2 * sizeof_elem t) eqn:E; [apply Z.leb_le in E; lia|].
  destruct (aligned_access_body_trace fuel t k dst value count Ht Hk Hc Hf)
    as (n & Heq & Hd & Hmod & Hn & Ho & Hlast).
  exists n. cbv zeta. splits; [exact Heq|lia|lia].
Qed.

Lemma aligned_access_body_in_bounds fuel t k dst value count :
  sizeof_elem t = 2 ^ k -> 0 <= k <= 64 ->
  2 * sizeof_elem t < count < size_modulus -> count < Z.of_nat fuel ->
  word_stores_in_bounds (aligned_access_body fuel t dst value count)
    (sizeof_elem t) dst value count.
Proof.
  intros Ht Hk Hc Hf. unfold word_stores_in_bounds.
  pose proof (sizeof_elem_pos t) as Hpos.
  destruct (aligned_access_body_trace fuel t k dst value count Ht Hk Hc Hf)
    as (n & Heq & Hd & Hmod & Hn & Ho & Hlast).
  exists n. cbv zeta. splits; [exact Heq| |apply size_sub_small; lia|lia|lia|lia].
  apply strided_Forall. intros j Hj. unfold within, store_base.
  cbn [unit_store st_kind st_addr st_size]. nia.
Qed.

Lemma aligned_access_body_aligned fuel t k dst value count :
  sizeof_elem t = 2 ^ k -> 0 <= k <= 64 ->
  2 * sizeof_elem t < count < size_modulus -> count < Z.of_nat fuel ->
  exists tr,
    aligned_access_body fuel t dst value count = Some (tt, tr) /\
    Forall (aligned_word (sizeof_elem t)
              (dst + distance_to_align_up (sizeof_elem t) dst)) tr.
Proof.
  intros Ht Hk Hc Hf. pose proof (sizeof_elem_pos t) as Hpos.
  destruct (aligned_access_body_trace fuel t k dst value count Ht Hk Hc Hf)
    as (n & Heq & Hd & Hmod & Hn & Ho & Hlast).
  eexists. split; [exact Heq|].
  repeat (apply Forall_app; split).
  - apply byte_fill_Forall. intros a. discriminate 1.
  - apply strided_Forall. intros j Hj _.
    cbn [unit_store st_addr st_size]. splits; [reflexivity| |now exists j].
    rewrite (Z.mul_comm (sizeof_elem t)), Z.mod_add by lia. exact Hmod.
  - apply byte_fill_Forall. intros a. discriminate 1.
Qed.

Lemma byte_per_byte_aligned fuel w base dst value count :
  0 <= count < size_modulus -> count < Z.of_nat fuel ->
  exists tr,
    inline_memset_byte_per_byte fuel dst value count 0 = Some (tt, tr) /\
    tr = byte_fill dst value 0 count /\ Forall (aligned_word w base) tr.
Proof.
  intros Hc Hf.
  destruct (wp_result _ _ (wp_byte_per_byte_trace fuel dst value count 0
                             Hc ltac:(lia) ltac:(lia))) as (tr & Heq & ->).
  eexists. splits; [exact Heq|reflexivity|].
  apply byte_fill_Forall. intros a. discriminate 1.
Qed.

(** C4. Both alignment-aware scalar strategies have the specified shape: for
    [count <= 2 * wordSize] the call is the byte-per-byte fallback; otherwise
    the trace is a byte-per-byte head of [distance_to_align_up dst] bytes,
    then aligned word stores of the splatted value at stride [wordSize] that
    stop at the first offset [o >= count - wordSize], then a byte-per-byte
    tail from [o] to [count]. *)
Theorem aligned_access_has_specified_shape fuel dst value count :
  0 <= count < size_modulus -> count < Z.of_nat fuel ->
  aligned_access_shape
    (inline_memset_aligned_access_32bit fuel dst value count)
    (inline_memset_byte_per_byte fuel dst value count 0) 4 dst value count /\
  aligned_access_shape
    (inline_memset_aligned_access_64bit fuel dst value count)
    (inline_memset_byte_per_byte fuel dst value count 0) 8 dst value count.
Proof.
  intros Hc Hf. split.
  - rewrite inline_memset_aligned_access_32bit_unfold.
    destruct (count <=? 8) eqn:E.
    + unfold aligned_access_shape. change (2 * 4) with 8. rewrite E.
      split; [reflexivity|].
      destruct (byte_per_byte_aligned fuel 4 0 dst value count Hc Hf)
        as (tr & Heq & -> & _). exact Heq.
    + apply Z.leb_gt in E.
      apply (aligned_access_body_shape fuel uint32_t 2);
        [reflexivity|lia|cbn [sizeof_elem]; lia|exact Hf].
  - rewrite inline_memset_aligned_access_64bit_unfold.
    destruct (count <=? 16) eqn:E.
    + unfold aligned_access_shape. change (2 * 8) with 16. rewrite E.
      split; [reflexivity|].
      destruct (byte_per_byte_aligned fuel 8 0 dst value count Hc Hf)
        as (tr & Heq & -> & _). exact Heq.
    + apply Z.leb_gt in E.
      apply (aligned_access_body_shape fuel uint64_t 3);
        [reflexivity|lia|cbn [sizeof_elem]; lia|exact Hf].
Qed.

Lemma aligned_access_has_specified_shape_witness :
  aligned_access_shape
    (inline_memset_aligned_access_32bit 30 1001 1 21)
    (inline_memset_byte_per_byte 30 1001 1 21 0) 4 1001 1 21 /\
  aligned_access_shape
    (inline_memset_aligned_access_64bit 30 1001 1 21)
    (inline_memset_byte_per_byte 30 1001 1 21 0) 8 1001 1 21.
Proof.
  apply (aligned_access_has_specified_shape 30 1001 1 21).
  - unfold size_modulus. lia.
  - cbn. lia.
Defined.

(** C5. When [count > 2 * wordSize], every word store of the middle loop lies
    inside [dst, dst + count) and ends at or before the final offset; the
    loop bound [count - wordSize] does not wrap; and the bytes from the final
    offset to [count] (between 1 and [wordSize] of them) are written by the
    explicit byte-per-byte tail fill. *)
Theorem word_stores_stay_in_bounds fuel dst value count :
  0 <= count < size_modulus -> count < Z.of_nat fuel ->
  (2 * 4 < count ->
   word_stores_in_bounds
     (inline_memset_aligned_access_32bit fuel dst value count)
     4 dst value count) /\
  (2 * 8 < count ->
   word_stores_in_bounds
     (inline_memset_aligned_access_64bit fuel dst value count)
     8 dst value count).
Proof.
  intros Hc Hf. split; intros Hbig.
  - rewrite inline_memset_aligned_access_32bit_unfold.
    destruct (count <=? 8) eqn:E; [apply Z.leb_le in E; lia|].
    apply (aligned_access_body_in_bounds fuel uint32_t 2);
      [reflexivity|lia|cbn [sizeof_elem]; lia|exact Hf].
  - rewrite inline_memset_aligned_access_64bit_unfold.
    destruct (count <=? 16) eqn:E; [apply Z.leb_le in E; lia|].
    apply (aligned_access_body_in_bounds fuel uint64_t 3);
      [reflexivity|lia|cbn [sizeof_elem]; lia|exact Hf].
Qed.

Lemma word_stores_stay_in_bounds_witness :
  word_stores_in_bounds
    (inline_memset_aligned_access_32bit 30 1001 1 21) 4 1001 1 21 /\
  word_stores_in_bounds
    (inline_memset_aligned_access_64bit 30 1001 1 21) 8 1001 1 21.
Proof.
  assert (Hc : 0 <= 21 < size_modulus) by (unfold size_modulus; lia).
  assert (Hf : 21 < Z.of_nat 30) by (cbn; lia).
  destruct (word_stores_stay_in_bounds 30 1001 1 21 Hc Hf) as [H32 H64].
  split; [apply H32|apply H64]; lia.
Defined.

(** C9. In both alignment-aware strategies every store issued through the
    aligned-store primitive is one word wide, sits a whole number of words
    above [dst + distance_to_align_up dst] (the offset starts there and
    advances by the word size), and its address [dst + offset] is a multiple
    of the word size, so the primitive's alignment assertion holds at every
    loop iteration. *)
Theorem aligned_store_assertion_holds fuel dst value count :
  0 <= count < size_modulus -> count < Z.of_nat fuel ->
  (exists tr,
      inline_memset_aligned_access_32bit fuel dst value count = Some (tt, tr) /\
      Forall (aligned_word 4 (dst + distance_to_align_up 4 dst)) tr) /\
  (exists tr,
      inline_memset_aligned_access_64bit fuel dst value count = Some (tt, tr) /\
      Forall (aligned_word 8 (dst + distance_to_align_up 8 dst)) tr).
Proof.
  intros Hc Hf. split.
  - rewrite inline_memset_aligned_access_32bit_unfold.
    destruct (count <=? 8) eqn:E.
    + destruct (byte_per_byte_aligned fuel 4
                  (dst + distance_to_align_up 4 dst) dst value count Hc Hf)
        as (tr & Heq & _ & Hal). now exists tr.
    + apply Z.leb_gt in E.
      apply (aligned_access_body_aligned fuel uint32_t 2);
        [reflexivity|lia|cbn [sizeof_elem]; lia|exact Hf].
  - rewrite inline_memset_aligned_access_64bit_unfold.
    destruct (count <=? 16) eqn:E.
    + destruct (byte_per_byte_aligned fuel 8
                  (dst + distance_to_align_up 8 dst) dst value count Hc Hf)
        as (tr & Heq & _ & Hal). now exists tr.
    + apply Z.leb_gt in E.
      apply (aligned_access_body_aligned fuel uint64_t 3);
        [reflexivity|lia|cbn [sizeof_elem]; lia|exact Hf].
Qed.

Lemma aligned_store_assertion_holds_witness :
  (exists tr,
      inline_memset_aligned_access_32bit 30 1001 1 21 = Some (tt, tr) /\
      Forall (aligned_word 4 (1001 + distance_to_align_up 4 1001)) tr) /\
  (exists tr,
      inline_memset_aligned_access_64bit 30 1001 1 21 = Some (tt, tr) /\
      Forall (aligned_word 8 (1001 + distance_to_align_up 8 1001)) tr).
Proof.
  apply (aligned_store_assertion_holds 30 1001 1 21).
  - unfold size_modulus. lia.
  - cbn. lia.
Defined.

(** ** AArch64 beyond 96 bytes *)

Lemma inline_memset_aarch64_large fuel hasZva dst value count :
  96 < count ->
  inline_memset_aarch64 fuel hasZva dst value count =
  if (448 <=? count) && (value =? 0) && hasZva then
    Memset_block AArch64.uint512_t dst 0 ;;
    let '(dst, count) := align_to_next_boundary 64 dst count in
    BzeroCacheLine_loop_and_tail fuel dst 0 count
  else
    Memset_block AArch64.uint128_t dst value ;;
    let '(dst, count) := align_to_next_boundary 16 dst count in
    Memset_loop_and_tail fuel AArch64.uint512_t dst value count.
Proof.
  intros Hc. unfold inline_memset_aarch64.
  destruct (count =? 0) eqn:E0; [apply Z.eqb_eq in E0; lia|].
  destruct (count <=? 3) eqn:E1; [apply Z.leb_le in E1; lia|].
  destruct (count <=? 8) eqn:E2; [apply Z.leb_le in E2; lia|].
  destruct (count <=? 16) eqn:E3; [apply Z.leb_le in E3; lia|].
  destruct (count <=? 32) eqn:E4; [apply Z.leb_le in E4; lia|].
  destruct (count <=? 32 + 64) eqn:E5; [apply Z.leb_le in E5; lia|].
  reflexivity.
Qed.

Lemma within_weaken p c dst count s :
  dst <= p -> p + c <= dst + count -> within p c s -> within dst count s.
Proof. unfold within. lia. Qed.

(** C10. On AArch64, for [count > 96] the dispatcher issues its head block,
    advances [(dst, count)] with [align_to_next_boundary] to [(p, c)] and
    calls a [loop_and_tail] routine on [(p, c)]: the cache-line-zeroing one
    on the zero-fill path, the generic 512-bit one otherwise.  In both cases
    [c >= 64], so [c - 64] does not wrap, [p + c] is the end of the original
    range, the routine returns, and all its stores lie within
    [dst, dst + count). *)
Theorem aarch64_loop_and_tail_in_bounds fuel hasZva dst value count :
  0 <= value < 256 -> 96 < count < size_modulus -> count < Z.of_nat fuel ->
  let zva := (448 <=? count) && (value =? 0) && hasZva in
  let '(p, c) := align_to_next_boundary (if zva then 64 else 16) dst count in
  exists head tr_loop,
    inline_memset_aarch64 fuel hasZva dst value count
      = Some (tt, head ++ tr_loop) /\
    (if zva then BzeroCacheLine_loop_and_tail fuel p 0 c
     else Memset_loop_and_tail fuel AArch64.uint512_t p value c)
      = Some (tt, tr_loop) /\
    64 <= c /\ size_sub c 64 = c - 64 /\
    dst < p /\ p + c = dst + count /\
    Forall (within dst count) tr_loop.
Proof.
  intros Hv Hc Hf zva.
  rewrite (inline_memset_aarch64_large fuel hasZva dst value count)
    by lia. fold zva.
  destruct zva eqn:Z.
  - subst zva. apply andb_true_iff in Z. destruct Z as [Z _].
    apply andb_true_iff in Z. destruct Z as [Z1 _]. apply Z.leb_le in Z1.
    align_cases 6 64 dst count.
    destruct (wp_result _ _ (wp_BzeroCacheLine_loop_and_tail fuel p c Hp2
                               ltac:(lia) ltac:(lia)))
      as (tr & Heq & Hfill).
    exists [unit_store Unaligned 64 0 dst], tr.
    splits; try lia.
    + change (Memset_block AArch64.uint512_t dst 0)
        with (Some (tt, [unit_store Unaligned 64 0 dst])).
      unfold bind. now rewrite Heq.
    + exact Heq.
    + apply size_sub_small; lia.
    + apply fills_within in Hfill.
      eapply Forall_impl; [|exact Hfill].
      intros s. apply within_weaken; lia.
  - align_cases 4 16 dst count.
    assert (Hs : 0 < sizeof AArch64.uint512_t) by reflexivity.
    assert (Hcc : sizeof AArch64.uint512_t <= c < size_modulus)
      by (change (sizeof AArch64.uint512_t) with 64; lia).
    destruct (wp_result _ _ (wp_Memset_loop_and_tail fuel AArch64.uint512_t
                               p value c Hv Hs Hcc ltac:(lia)))
      as (tr & Heq & Hfill).
    exists [unit_store Unaligned 16 value dst], tr.
    splits; try lia.
    + change (Memset_block AArch64.uint128_t dst value)
        with (Some (tt, [unit_store Unaligned 16 value dst])).
      unfold bind. now rewrite Heq.
    + exact Heq.
    + apply size_sub_small; lia.
    + apply fills_within in Hfill.
      eapply Forall_impl; [|exact Hfill].
      intros s. apply within_weaken; lia.
Qed.

Lemma aarch64_loop_and_tail_in_bounds_witness :
  let zva := (448 <=? 500) && (0 =? 0) && true in
  let '(p, c) := align_to_next_boundary (if zva then 64 else 16) 1001 500 in
  exists head tr_loop,
    inline_memset_aarch64 501 true 1001 0 500 = Some (tt, head ++ tr_loop) /\
    (if zva then BzeroCacheLine_loop_and_tail 501 p 0 c
     else Memset_loop_and_tail 501 AArch64.uint512_t p 0 c)
      = Some (tt, tr_loop) /\
    64 <= c /\ size_sub c 64 = c - 64 /\
    1001 < p /\ p + c = 1001 + 500 /\
    Forall (within 1001 500) tr_loop.
Proof.
  apply (aarch64_loop_and_tail_in_bounds 501 true 1001 0 500).
  - lia.
  - unfold size_modulus. lia.
  - cbn. lia.
Defined.

(** ** Which AArch64 path issues [dc zva] *)

Lemma wp_Memset_block_plain T dst value :
  wp (Memset_block T dst value) (fun _ tr => Forall is_plain tr).
Proof.
  apply (wp_Memset_block_rel (all_rel is_plain)
           (all_rel_nil is_plain) (all_rel_app is_plain)).
  intros t p. apply wp_emit. repeat constructor.
Qed.

Lemma wp_Memset_loop_and_tail_plain fuel T dst value count :
  0 < sizeof T -> sizeof T <= count < size_modulus -> count < Z.of_nat fuel ->
  wp (Memset_loop_and_tail fuel T dst value count)
     (fun _ tr => Forall is_plain tr).
Proof.
  intros HT Hc Hf. unfold Memset_loop_and_tail, Memset_tail. apply wp_bind.
  replace 0 with (sizeof T * 0) at 1 by lia.
  eapply wp_mono.
  { apply (wp_block_loop (all_rel is_plain) (all_rel_app is_plain)
             _ (sizeof T) dst count HT Hc); [|lia|lia|lia].
    intros j Hj Hin. apply wp_Memset_block_plain. }
  intros [] t1 (n & _ & _ & _ & _ & H1). cbv beta.
  eapply wp_mono; [apply wp_Memset_block_plain|]. intros [] t2 H2.
  cbv beta in *. apply Forall_app. now split.
Qed.

Lemma plain_not_zva tr : Forall is_plain tr -> ~ Exists is_zva tr.
Proof.
  intros Hp Hz. apply Exists_exists in Hz. destruct Hz as (s & Hin & Hs).
  rewrite Forall_forall in Hp. specialize (Hp s Hin).
  unfold is_plain, is_zva in *. congruence.
Qed.

Lemma BzeroCacheLine_loop_and_tail_first fuel dst count tr :
  BzeroCacheLine_loop_and_tail fuel dst 0 count = Some (tt, tr) ->
  Exists is_zva tr.
Proof.
  unfold BzeroCacheLine_loop_and_tail. destruct fuel as [|fuel];
    [discriminate|].
  cbn [block_loop]. unfold BzeroCacheLine_block at 1. unfold emit, bind.
  destruct (if _ <? _ then _ else _) as [[[] t1]|]; [|discriminate].
  destruct (Memset_tail _ _ _ _) as [[[] t2]|]; [|discriminate].
  intros H. injection H as <-. cbn [app]. now left.
Qed.

Lemma aarch64_zva_store_iff fuel z dst v count :
  0 <= v < 256 -> 0 <= count < size_modulus -> count < Z.of_nat fuel ->
  exists tr,
    inline_memset_aarch64 fuel z dst v count = Some (tt, tr) /\
    fills v (interval dst (dst + count)) tr /\
    (Exists is_zva tr <-> 448 <= count /\ v = 0 /\ z = true).
Proof.
  intros Hv Hc Hf.
destruct (wp_result _ _ (wp_inline_memset_aarch64 fuel z dst v count
                           Hv Hc Hf)) as (tr & Heq & Hfill).
exists tr. splits; [exact Heq|exact Hfill|].
destruct (Z_le_gt_dec count 96) as [Hsmall|Hbig].
- split; [|lia]. intros Hz. exfalso. revert Hz. apply plain_not_zva.
  revert Heq. unfold inline_memset_aarch64.
  unfold Memset_head_tail, Memset_tail, bind.
  repeat match goal with
    | |- context [if ?a =? ?b then _ else _] =>
        let E := fresh "E" in
        destruct (a =? b) eqn:E;
        [apply Z.eqb_eq in E|apply Z.eqb_neq in E]
    | |- context [if ?a <=? ?b then _ else _] =>
        let E := fresh "E" in
        destruct (a <=? b) eqn:E;
        [apply Z.leb_le in E|apply Z.leb_gt in E]
    | |- context [if ?a <? ?b then _ else _] =>
        let E := fresh "E" in
        destruct (a <? b) eqn:E;
        [apply Z.ltb_lt in E|apply Z.ltb_ge in E]
    end;
    try (exfalso; lia);
    intros H; injection H as <-; repeat constructor.
- rewrite (inline_memset_aarch64_large fuel z dst v count) in Heq by lia.
  destruct ((448 <=? count) && (v =? 0) && z) eqn:Z.
  + apply andb_true_iff in Z. destruct Z as [Z Z3].
    apply andb_true_iff in Z. destruct Z as [Z1 Z2].
    apply Z.leb_le in Z1. apply Z.eqb_eq in Z2.
    split; [auto|]. intros _.
    unfold bind in Heq. cbn [Memset_block AArch64.uint512_t store emit] in Heq.
    destruct (align_to_next_boundary 64 dst count) as [p c].
    destruct (BzeroCacheLine_loop_and_tail fuel p 0 c) as [[[] t2]|] eqn:E2;
      [|discriminate].
    injection Heq as <-. apply Exists_cons_tl.
    now apply (BzeroCacheLine_loop_and_tail_first fuel p c).
  + split.
    * intros Hz. exfalso. revert Hz. apply plain_not_zva.
      assert (Hwp : wp (Memset_block AArch64.uint128_t dst v ;;
                        let '(dst, count) :=
                          align_to_next_boundary 16 dst count in
                        Memset_loop_and_tail fuel AArch64.uint512_t
                          dst v count)
                       (fun _ tr => Forall is_plain tr)).
      { apply wp_bind.
        eapply wp_mono; [apply wp_Memset_block_plain|].
        intros [] t1 H1. cbv beta. align_cases 4 16 dst count.
        eapply wp_mono;
          [apply (wp_Memset_loop_and_tail_plain fuel _ p v c);
           cbn [sizeof sizeof_elem AArch64.uint512_t]; lia|].
        intros [] t2 H2. cbv beta. apply Forall_app. now split. }
      rewrite Heq in Hwp. exact Hwp.
    * intros (H1 & H2 & H3). exfalso.
      apply Z.leb_le in H1. apply Z.eqb_eq in H2.
      rewrite H1, H2, H3 in Z. discriminate.
Qed.

(** ** The x86 tiers against the tier table *)

Lemma byte_writes_strided k w value a (n : nat) :
  0 <= value < 256 -> 0 < w -> k <> DcZva ->
  byte_writes (strided (unit_store k w value) w a n)
  = fill_writes a (w * Z.of_nat n) value.
Proof.
  intros Hv Hw Hk. induction n as [|n IH].
  - now rewrite Z.mul_0_r.
  - rewrite <- Nat.add_1_r, strided_app, byte_writes_app, IH, strided_one.
    rewrite writes_unit_store by assumption.
    replace (w * Z.of_nat (n + 1)) with (w * Z.of_nat n + w) by lia.
    now rewrite fill_writes_app by lia.
Qed.

Lemma byte_writes_two_units w value a b :
  0 <= value < 256 -> 0 < w ->
  byte_writes [unit_store Unaligned w value a; unit_store Unaligned w value b]
  = fill_writes a w value ++ fill_writes b w value.
Proof.
  intros Hv Hw.
  change [unit_store Unaligned w value a; unit_store Unaligned w value b]
    with ([unit_store Unaligned w value a] ++ [unit_store Unaligned w value b]).
  rewrite byte_writes_app, !writes_unit_store; auto; discriminate.
Qed.

(** Number of iterations of the store loop of [loop_and_tail]. *)
Lemma loop_iterations w c n :
  0 < w -> 2 * w < c -> 0 < n -> w * n <= c -> c - w <= w * n ->
  n = 1 \/ w * (n - 1) < c - w ->
  n = (c - 1) / w.
Proof.
  intros Hw Hc Hn H1 H2 H3.
  apply Z.div_unique with (r := c - 1 - w * n); nia.
Qed.

Lemma wp_Memset_loop_and_tail_writes fuel T dst value count :
  0 <= value < 256 -> 0 < sizeof T -> 2 * sizeof T < count < size_modulus ->
  count < Z.of_nat fuel ->
  wp (Memset_loop_and_tail fuel T dst value count)
     (fun _ tr =>
        byte_writes tr =
        fill_writes dst (sizeof T * ((count - 1) / sizeof T)) value ++
        fill_writes (dst + count - sizeof T) (sizeof T) value).
Proof.
  intros Hv HT Hc Hf. unfold Memset_loop_and_tail, Memset_tail. apply wp_bind.
  replace 0 with (sizeof T * 0) at 1 by lia.
  eapply wp_mono.
  { apply (wp_block_loop (writes_rel value) (writes_rel_app value)
             _ (sizeof T) dst count HT); [lia| |lia|lia|lia].
    intros j Hj Hin.
    apply (wp_Memset_block_rel (writes_rel value)
             (writes_rel_nil value) (writes_rel_app value)).
    intros t p. now apply wp_store_writes. }
  intros [] t1 (n & Hn1 & Hn2 & Hn3 & Hn4 & H1). cbv beta.
  eapply wp_mono; [apply wp_Memset_block_writes, Hv|]. intros [] t2 H2.
  cbv beta in *. unfold writes_rel in H1.
  rewrite byte_writes_app, H1, H2.
  rewrite <- (loop_iterations (sizeof T) count n) by lia.
  do 2 f_equal; lia.
Qed.

Lemma wp_Memset_loop_and_tail_trace fuel t dst value count :
  2 * sizeof_elem t < count < size_modulus -> count < Z.of_nat fuel ->
  let w := sizeof_elem t in
  wp (Memset_loop_and_tail fuel (Elem t) dst value count)
     (fun _ tr =>
        tr = strided (unit_store Unaligned w value) w dst
                     (Z.to_nat ((count - 1) / w))
             ++ [unit_store Unaligned w value (dst + count - w)]).
Proof.
  intros Hc Hf w. pose proof (sizeof_elem_pos t) as Hw. fold w in Hw, Hc.
  unfold Memset_loop_and_tail, Memset_tail. cbn [sizeof]. fold w.
  apply wp_bind.
  replace 0 with (w * 0) at 1 by lia.
  eapply wp_mono.
  { apply (wp_block_loop (strided_rel (unit_store Unaligned w value) w)
             (strided_rel_app _ w) _ w dst count Hw); [lia| |lia|lia|lia].
    intros j Hj Hin.
    exact (strided_rel_one (unit_store Unaligned w value) w (dst + w * j)). }
  intros [] t1 (n & Hn1 & Hn2 & Hn3 & Hn4 & (n0 & Hn0 & ->)). cbv beta.
  apply wp_emit.
  assert (Hnn : n = Z.of_nat n0) by nia. subst n.
  rewrite <- (loop_iterations w count (Z.of_nat n0)) by lia.
  rewrite Nat2Z.id. do 2 f_equal. lia.
Qed.

(** For a [size_t] count the table's ranges select as the dispatcher's chain
    of comparisons does. *)
Lemma x86_tier_table_chain count : 0 <= count ->
  x86_tier_table count =
  if count =? 0 then NoOp
  else if count =? 1 then SingleStore 1
  else if count =? 2 then SingleStore 2
  else if count =? 3 then StoreSequence 2 1
  else if count <=? 8 then HeadTail 4
  else if count <=? 16 then HeadTail 8
  else if count <=? 32 then HeadTail 16
  else if count <=? 64 then HeadTail 32
  else if count <=? 128 then HeadTail 64
  else HeadAlignLoopTail 32 32 32.
Proof.
  intros Hc. unfold x86_tier_table.
  destruct (count =? 0) eqn:E0; [reflexivity|apply Z.eqb_neq in E0].
  destruct (count =? 1) eqn:E1; [reflexivity|apply Z.eqb_neq in E1].
  destruct (count =? 2) eqn:E2; [reflexivity|apply Z.eqb_neq in E2].
  destruct (count =? 3) eqn:E3; [reflexivity|apply Z.eqb_neq in E3].
  replace (4 <=? count) with true by (symmetry; apply Z.leb_le; lia).
  cbn [andb].
  destruct (count <=? 8) eqn:E4; [reflexivity|apply Z.leb_gt in E4].
  replace (9 <=? count) with true by (symmetry; apply Z.leb_le; lia).
  cbn [andb].
  destruct (count <=? 16) eqn:E5; [reflexivity|apply Z.leb_gt in E5].
  replace (17 <=? count) with true by (symmetry; apply Z.leb_le; lia).
  cbn [andb].
  destruct (count <=? 32) eqn:E6; [reflexivity|apply Z.leb_gt in E6].
  replace (33 <=? count) with true by (symmetry; apply Z.leb_le; lia).
  cbn [andb].
  destruct (count <=? 64) eqn:E7; [reflexivity|apply Z.leb_gt in E7].
  replace (65 <=? count) with true by (symmetry; apply Z.leb_le; lia).
  reflexivity.
Qed.

Lemma x86_byte_writes fuel e dst value count :
  0 <= value < 256 -> 0 <= count < size_modulus -> count < Z.of_nat fuel ->
  wp (inline_memset_x86 fuel e dst value count)
     (fun _ tr =>
        byte_writes tr =
        byte_writes (strategy_stores (x86_tier_table count) dst value count)).
Proof.
  intros Hv Hc Hf. rewrite x86_tier_table_chain by lia.
  unfold inline_memset_x86.
  pose proof (sizeof_uint128_t e) as S128.
  pose proof (sizeof_uint256_t e) as S256.
  pose proof (sizeof_uint512_t e) as S512.
  tier_cases; try reflexivity.
  - eapply wp_mono; [apply wp_Memset_head_tail_writes, Hv|].
    intros [] tr ->. cbn [strategy_stores].
    rewrite byte_writes_two_units, S128 by lia. reflexivity.
  - eapply wp_mono; [apply wp_Memset_head_tail_writes, Hv|].
    intros [] tr ->. cbn [strategy_stores].
    rewrite byte_writes_two_units, S256 by lia. reflexivity.
  - eapply wp_mono; [apply wp_Memset_head_tail_writes, Hv|].
    intros [] tr ->. cbn [strategy_stores].
    rewrite byte_writes_two_units, S512 by lia. reflexivity.
  - apply wp_bind.
    eapply wp_mono; [apply wp_Memset_block_writes, Hv|]. intros [] t1 H1.
    cbv beta. align_cases 5 32 dst count.
    eapply wp_mono;
      [apply (wp_Memset_loop_and_tail_writes fuel _ p value c Hv); lia|].
    intros [] t2 H2. cbv beta. cbn [strategy_stores]. cbv zeta.
    rewrite !byte_writes_app, H1, H2, S256.
    rewrite byte_writes_strided, !writes_unit_store by (lia || discriminate).
    rewrite <- Hp0.
    replace (dst + count - 32 - p + 32 - 1) with (c - 1) by lia.
    rewrite Z2Nat.id by (apply Z.div_pos; lia).
    do 3 f_equal. lia.
Qed.

Lemma x86_native_trace fuel e dst value count :
  0 <= value < 256 -> 0 <= count < size_modulus -> count < Z.of_nat fuel ->
  wp (inline_memset_x86 fuel e dst value count)
     (fun _ tr =>
        e = AVX512F \/ count <= 16 ->
        tr = strategy_stores (x86_tier_table count) dst value count).
Proof.
  intros Hv Hc Hf. rewrite x86_tier_table_chain by lia.
  unfold inline_memset_x86.
  tier_cases; try (intros _; reflexivity).
  - destruct e; try (intros _; reflexivity).
    intros [H|H]; [discriminate|lia].
  - destruct e; try (intros _; reflexivity);
      (intros [H|H]; [discriminate|lia]).
  - destruct e; try (intros _; reflexivity);
      (intros [H|H]; [discriminate|lia]).
  - assert (He : e = AVX512F \/ e <> AVX512F)
      by (destruct e; auto; right; discriminate).
    destruct He as [->|He].
    + apply wp_bind. apply wp_emit. align_cases 5 32 dst count.
      eapply wp_mono;
        [apply (wp_Memset_loop_and_tail_trace fuel generic_v256 p value c);
         cbn [sizeof_elem]; lia|].
      intros [] t2 -> _. cbn [strategy_stores sizeof_elem]. cbv zeta.
      rewrite <- Hp0.
      replace (dst + count - 32 - p + 32 - 1) with (c - 1) by lia.
      replace (p + c - 32) with (dst + count - 32) by lia.
      reflexivity.
    + pose proof (sizeof_uint256_t e) as S256.
      apply wp_bind. wp_block Hv. align_cases 5 32 dst count.
      eapply wp_mono;
        [apply (wp_Memset_loop_and_tail fuel _ p value c Hv); lia|].
      intros [] t2 _ [H|H]; [contradiction|lia].
Qed.

(** C2. For every count the x86 dispatcher does what the tier table says for
    that count, whatever the destination and the value: its byte writes are,
    in order, those of the table's strategy, and when every unit is a single
    native store (AVX-512 builds, and the scalar tiers of every build) its
    stores are exactly the strategy's stores.  Beyond 128 bytes that is one
    256-bit store at [dst], then 256-bit stores from the first 32-byte
    boundary above [dst], then the tail store ending at [dst + count]. *)
Theorem x86_follows_tier_table fuel e dst value count :
  0 <= value < 256 -> 0 <= count < size_modulus -> count < Z.of_nat fuel ->
  exists tr,
    inline_memset_x86 fuel e dst value count = Some (tt, tr) /\
    byte_writes tr =
      byte_writes (strategy_stores (x86_tier_table count) dst value count) /\
    (e = AVX512F \/ count <= 16 ->
     tr = strategy_stores (x86_tier_table count) dst value count).
Proof.
  intros Hv Hc Hf.
  destruct (wp_result _ _
              (wp_conj _ _ _ (x86_byte_writes fuel e dst value count Hv Hc Hf)
                 (x86_native_trace fuel e dst value count Hv Hc Hf)))
    as (tr & Heq & Hw & Hn).
  now exists tr.
Qed.

Lemma x86_follows_tier_table_witness :
  exists tr,
    inline_memset_x86 201 AVX512F 1001 7 200 = Some (tt, tr) /\
    byte_writes tr =
      byte_writes (strategy_stores (x86_tier_table 200) 1001 7 200) /\
    (AVX512F = AVX512F \/ 200 <= 16 ->
     tr = strategy_stores (x86_tier_table 200) 1001 7 200).
Proof.
  apply (x86_follows_tier_table 201 AVX512F 1001 7 200).
  - lia.
  - unfold size_modulus. lia.
  - cbn. lia.
Defined.

(** ** Helper lemmas for the further properties *)

Lemma exec_app_fold t1 t2 (m : Mem) : exec (t1 ++ t2) m = exec t2 (exec t1 m).
Proof. unfold exec. apply fold_left_app. Qed.

Lemma length_strided mk w a (n : nat) : length (strided mk w a n) = n.
Proof. unfold strided. now rewrite length_map, length_seq. Qed.

Lemma filter_strided_all (f : Store -> bool) mk w a (n : nat) :
  (forall x, f (mk x) = true) ->
  filter f (strided mk w a n) = strided mk w a n.
Proof.
  intros H. unfold strided. induction (seq 0 n) as [|j l IH]; [reflexivity|].
  cbn [map filter]. now rewrite H, IH.
Qed.

Lemma filter_strided_none (f : Store -> bool) mk w a (n : nat) :
  (forall x, f (mk x) = false) -> filter f (strided mk w a n) = [].
Proof.
  intros H. unfold strided. induction (seq 0 n) as [|j l IH]; [reflexivity|].
  cbn [map filter]. now rewrite H, IH.
Qed.

Lemma byte_writes_byte_fill dst value lo hi :
  0 <= value < 256 -> lo <= hi ->
  byte_writes (byte_fill dst value lo hi) = fill_writes (dst + lo) (hi - lo) value.
Proof.
  intros Hv Hle. unfold byte_fill.
  rewrite byte_writes_strided by (lia || discriminate).
  f_equal. lia.
Qed.

Lemma byte_writes_word_fill w dst value lo (n : nat) :
  0 <= value < 256 -> 0 < w ->
  byte_writes (word_fill w dst value lo n)
  = fill_writes (dst + lo) (w * Z.of_nat n) value.
Proof.
  intros Hv Hw. unfold word_fill.
  now rewrite byte_writes_strided by (lia || discriminate).
Qed.

Lemma aligned_access_body_once fuel t k dst value count :
  sizeof_elem t = 2 ^ k -> 0 <= k <= 64 -> 0 <= value < 256 ->
  2 * sizeof_elem t < count < size_modulus -> count < Z.of_nat fuel ->
  writes_each_byte_once (aligned_access_body fuel t dst value count)
    dst value count.
Proof.
  intros Ht Hk Hv Hc Hf. pose proof (sizeof_elem_pos t) as Hpos.
  destruct (aligned_access_body_trace fuel t k dst value count Ht Hk Hc Hf)
    as (n & Heq & Hd & Hmod & Hn & Ho & Hlast).
  cbv zeta in *. eexists. split; [exact Heq|].
  rewrite !byte_writes_app, !byte_writes_byte_fill, byte_writes_word_fill
    by lia.
  set (w := sizeof_elem t) in *.
  set (d := distance_to_align_up w dst) in *.
  set (r := count - (d + w * Z.of_nat n)).
  assert (E : fill_writes dst count value =
              fill_writes dst d value ++
              fill_writes (dst + d) (w * Z.of_nat n) value ++
              fill_writes (dst + d + w * Z.of_nat n) r value).
  { replace count with (d + (w * Z.of_nat n + r)) at 1 by (subst r; lia).
    rewrite fill_writes_app by (subst r; nia).
    rewrite fill_writes_app by (subst r; nia). reflexivity. }
  rewrite E, Z.add_0_r, Z.sub_0_r. do 3 f_equal. lia.
Qed.

Lemma byte_per_byte_once fuel dst value count :
  0 <= value < 256 -> 0 <= count < size_modulus -> count < Z.of_nat fuel ->
  writes_each_byte_once (inline_memset_byte_per_byte fuel dst value count 0)
    dst value count.
Proof.
  intros Hv Hc Hf.
  destruct (wp_result _ _ (wp_byte_per_byte_trace fuel dst value count 0
                             Hc ltac:(lia) ltac:(lia))) as (tr & Heq & ->).
  eexists. split; [exact Heq|].
  rewrite byte_writes_byte_fill by lia. f_equal; lia.
Qed.

Lemma aligned_access_body_counts fuel t k dst value count :
  sizeof_elem t = 2 ^ k -> 0 <= k <= 64 -> 1 < sizeof_elem t ->
  2 * sizeof_elem t < count < size_modulus -> count < Z.of_nat fuel ->
  mostly_word_stores (aligned_access_body fuel t dst value count)
    (sizeof_elem t) count.
Proof.
  intros Ht Hk Hw Hc Hf.
  destruct (aligned_access_body_trace fuel t k dst value count Ht Hk Hc Hf)
    as (n & Heq & Hd & Hmod & Hn & Ho & Hlast).
  cbv zeta in *. eexists. split; [exact Heq|].
  set (w := sizeof_elem t) in *.
  set (d := distance_to_align_up w dst) in *.
  assert (Hb : forall lo hi,
             filter (fun s => st_size s =? 1) (byte_fill dst value lo hi)
             = byte_fill dst value lo hi)
    by (intros; apply filter_strided_all; reflexivity).
  assert (Hbw : filter (fun s => st_size s =? 1) (word_fill w dst value d n)
                = []).
  { apply filter_strided_none. intros x. cbn [unit_store st_size].
    apply Z.eqb_neq. lia. }
  assert (Hk1 : forall lo hi,
             filter (fun s => match st_kind s with
                              | AssertAligned => true | _ => false end)
                    (byte_fill dst value lo hi) = [])
    by (intros; apply filter_strided_none; reflexivity).
  assert (Hk2 : filter (fun s => match st_kind s with
                                 | AssertAligned => true | _ => false end)
                       (word_fill w dst value d n) = word_fill w dst value d n)
    by (apply filter_strided_all; reflexivity).
  unfold byte_store_count, word_store_count.
  rewrite !filter_app, !Hb, Hbw, !Hk1, Hk2. cbn [app].
  rewrite app_nil_r, length_app.
  unfold byte_fill, word_fill. rewrite !length_strided. lia.
Qed.

(** * Further properties of the dispatchers *)

(** ** Every target, as a memory transformer *)

(** X1. Whatever the target, no store of a call leaves [dst, dst + count):
    this includes the cache lines zeroed by [dc zva] and the overlapping
    head and tail stores. *)
Theorem inline_memset_stores_within_range fuel target dst value count :
  0 <= value < 256 -> 0 <= count < size_modulus -> count < Z.of_nat fuel ->
  exists tr,
    inline_memset fuel target dst value count = Some (tt, tr) /\
    Forall (within dst count) tr.
Proof.
  intros Hv Hc Hf.
  destruct (wp_result _ _ (wp_inline_memset fuel target dst value count
                             Hv Hc Hf)) as (tr & Heq & Hfill).
  exists tr. split; [exact Heq|]. now apply (fills_within value).
Qed.

Lemma inline_memset_stores_within_range_witness :
  exists tr,
    inline_memset 501 (LIBC_TARGET_ARCH_IS_AARCH64 true) 1001 0 500
      = Some (tt, tr) /\
    Forall (within 1001 500) tr.
Proof.
  apply (inline_memset_stores_within_range 501
           (LIBC_TARGET_ARCH_IS_AARCH64 true) 1001 0 500).
  - lia.
  - unfold size_modulus. lia.
  - cbn. lia.
Defined.

(** X2. The last fill wins: a fill of a range makes any earlier fill of the
    same range unobservable, whatever the targets and values; in particular
    filling twice with the same value leaves the memory of filling once. *)
Theorem last_fill_wins fuel target1 target2 dst value1 value2 count :
  0 <= value1 < 256 -> 0 <= value2 < 256 ->
  0 <= count < size_modulus -> count < Z.of_nat fuel ->
  exists tr1 tr2,
    inline_memset fuel target1 dst value1 count = Some (tt, tr1) /\
    inline_memset fuel target2 dst value2 count = Some (tt, tr2) /\
    (forall (m : Mem) x, exec tr2 (exec tr1 m) x = exec tr2 m x) /\
    (forall (m : Mem) x, exec tr2 (exec tr2 m) x = exec tr2 m x).
Proof.
  intros Hv1 Hv2 Hc Hf.
  destruct (wp_result _ _ (wp_inline_memset fuel target1 dst value1 count
                             Hv1 Hc Hf)) as (tr1 & Heq1 & Hfill1).
  destruct (wp_result _ _ (wp_inline_memset fuel target2 dst value2 count
                             Hv2 Hc Hf)) as (tr2 & Heq2 & Hfill2).
  exists tr1, tr2. splits; auto.
  - intros m x.
    destruct (fills_exec _ _ _ (exec tr1 m) x Hfill2) as [Hin Hout].
    destruct (fills_exec _ _ _ m x Hfill2) as [Hin' Hout'].
    destruct (fills_exec _ _ _ m x Hfill1) as [_ Hout1].
    assert (Hdec : interval dst (dst + count) x \/
                   ~ interval dst (dst + count) x)
      by (unfold interval; lia).
    destruct Hdec as [Hx|Hx].
    + now rewrite Hin, Hin'.
    + now rewrite Hout, Hout', Hout1.
  - intros m x.
    destruct (fills_exec _ _ _ (exec tr2 m) x Hfill2) as [Hin Hout].
    destruct (fills_exec _ _ _ m x Hfill2) as [Hin' Hout'].
    assert (Hdec : interval dst (dst + count) x \/
                   ~ interval dst (dst + count) x)
      by (unfold interval; lia).
    destruct Hdec as [Hx|Hx].
    + now rewrite Hin, Hin'.
    + now rewrite Hout.
Qed.

Lemma last_fill_wins_witness :
  exists tr1 tr2,
    inline_memset 38 (LIBC_TARGET_ARCH_IS_X86 AVX) 1001 7 37 = Some (tt, tr1) /\
    inline_memset 38 LIBC_TARGET_ARCH_IS_RISCV32 1001 9 37 = Some (tt, tr2) /\
    (forall (m : Mem) x, exec tr2 (exec tr1 m) x = exec tr2 m x) /\
    (forall (m : Mem) x, exec tr2 (exec tr2 m) x = exec tr2 m x).
Proof.
  apply (last_fill_wins 38 (LIBC_TARGET_ARCH_IS_X86 AVX)
           LIBC_TARGET_ARCH_IS_RISCV32 1001 7 9 37).
  - lia.
  - lia.
  - unfold size_modulus. lia.
  - cbn. lia.
Defined.

(** X3. Fills compose over adjacent ranges: filling [count1] bytes at [dst]
    and then [count2] bytes at [dst + count1] with the same value leaves the
    memory of one fill of [count1 + count2] bytes at [dst]. *)
Theorem adjacent_fills_compose fuel target dst value count1 count2 :
  0 <= value < 256 -> 0 <= count1 -> 0 <= count2 ->
  count1 + count2 < size_modulus -> count1 + count2 < Z.of_nat fuel ->
  exists tr1 tr2 tr,
    inline_memset fuel target dst value count1 = Some (tt, tr1) /\
    inline_memset fuel target (dst + count1) value count2 = Some (tt, tr2) /\
    inline_memset fuel target dst value (count1 + count2) = Some (tt, tr) /\
    forall (m : Mem) x, exec tr2 (exec tr1 m) x = exec tr m x.
Proof.
  intros Hv H1 H2 Hc Hf.
  destruct (wp_result _ _ (wp_inline_memset fuel target dst value count1
                             Hv ltac:(lia) ltac:(lia)))
    as (tr1 & Heq1 & Hfill1).
  destruct (wp_result _ _ (wp_inline_memset fuel target (dst + count1) value
                             count2 Hv ltac:(lia) ltac:(lia)))
    as (tr2 & Heq2 & Hfill2).
  destruct (wp_result _ _ (wp_inline_memset fuel target dst value
                             (count1 + count2) Hv ltac:(lia) ltac:(lia)))
    as (tr & Heq & Hfill).
  exists tr1, tr2, tr. splits; auto. intros m x.
  rewrite <- exec_app_fold.
  apply (fills_exec_eq value (interval dst (dst + (count1 + count2))));
    [|exact Hfill].
  fills_join (fills_app _ _ _ _ _ Hfill1 Hfill2).
Qed.

Lemma adjacent_fills_compose_witness :
  exists tr1 tr2 tr,
    inline_memset 300 (LIBC_TARGET_ARCH_IS_X86 SSE2) 1001 7 130
      = Some (tt, tr1) /\
    inline_memset 300 (LIBC_TARGET_ARCH_IS_X86 SSE2) (1001 + 130) 7 70
      = Some (tt, tr2) /\
    inline_memset 300 (LIBC_TARGET_ARCH_IS_X86 SSE2) 1001 7 (130 + 70)
      = Some (tt, tr) /\
    forall (m : Mem) x, exec tr2 (exec tr1 m) x = exec tr m x.
Proof.
  apply (adjacent_fills_compose 300 (LIBC_TARGET_ARCH_IS_X86 SSE2)
           1001 7 130 70).
  - lia.
  - lia.
  - lia.
  - unfold size_modulus. lia.
  - cbn. lia.
Defined.

(** X4. The targets agree: the same call leaves the same memory on every
    target, whichever vector extension an x86 build has and whether or not
    an AArch64 CPU offers [dc zva]. *)
Theorem targets_agree fuel target1 target2 dst value count :
  0 <= value < 256 -> 0 <= count < size_modulus -> count < Z.of_nat fuel ->
  exists tr1 tr2,
    inline_memset fuel target1 dst value count = Some (tt, tr1) /\
    inline_memset fuel target2 dst value count = Some (tt, tr2) /\
    forall (m : Mem) x, exec tr1 m x = exec tr2 m x.
Proof.
  intros Hv Hc Hf.
  destruct (wp_result _ _ (wp_inline_memset fuel target1 dst value count
                             Hv Hc Hf)) as (tr1 & Heq1 & Hfill1).
  destruct (wp_result _ _ (wp_inline_memset fuel target2 dst value count
                             Hv Hc Hf)) as (tr2 & Heq2 & Hfill2).
  exists tr1, tr2. splits; auto. intros m x.
  exact (fills_exec_eq _ _ _ _ m x Hfill1 Hfill2).
Qed.

Lemma targets_agree_witness :
  exists tr1 tr2,
    inline_memset 201 (LIBC_TARGET_ARCH_IS_X86 NoVector) 1001 7 200
      = Some (tt, tr1) /\
    inline_memset 201 LIBC_TARGET_ARCH_IS_RISCV64 1001 7 200
      = Some (tt, tr2) /\
    forall (m : Mem) x, exec tr1 m x = exec tr2 m x.
Proof.
  apply (targets_agree 201 (LIBC_TARGET_ARCH_IS_X86 NoVector)
           LIBC_TARGET_ARCH_IS_RISCV64 1001 7 200).
  - lia.
  - unfold size_modulus. lia.
  - cbn. lia.
Defined.

(** ** x86 builds *)

(** X5. The vector extension of an x86 build is invisible at the level of
    bytes: any two builds write the same bytes with the same values in the
    same order; they differ only in how the bytes are grouped into stores. *)
Theorem x86_extension_is_transparent fuel e1 e2 dst value count :
  0 <= value < 256 -> 0 <= count < size_modulus -> count < Z.of_nat fuel ->
  exists tr1 tr2,
    inline_memset_x86 fuel e1 dst value count = Some (tt, tr1) /\
    inline_memset_x86 fuel e2 dst value count = Some (tt, tr2) /\
    byte_writes tr1 = byte_writes tr2.
Proof.
  intros Hv Hc Hf.
  destruct (wp_result _ _ (x86_byte_writes fuel e1 dst value count Hv Hc Hf))
    as (tr1 & Heq1 & Hw1).
  destruct (wp_result _ _ (x86_byte_writes fuel e2 dst value count Hv Hc Hf))
    as (tr2 & Heq2 & Hw2).
  exists tr1, tr2. splits; auto. congruence.
Qed.

Lemma x86_extension_is_transparent_witness :
  exists tr1 tr2,
    inline_memset_x86 201 AVX512F 1001 7 200 = Some (tt, tr1) /\
    inline_memset_x86 201 NoVector 1001 7 200 = Some (tt, tr2) /\
    byte_writes tr1 = byte_writes tr2.
Proof.
  apply (x86_extension_is_transparent 201 AVX512F NoVector 1001 7 200).
  - lia.
  - unfold size_modulus. lia.
  - cbn. lia.
Defined.

(** ** The scalar targets *)

(** X6. On the targets without vector tiers (both alignment-aware strategies
    and the byte-per-byte fallback) a call writes every byte of
    [dst, dst + count) exactly once, in ascending address order: head, word
    stores and tail never overlap. *)
Theorem scalar_targets_write_each_byte_once fuel dst value count :
  0 <= value < 256 -> 0 <= count < size_modulus -> count < Z.of_nat fuel ->
  writes_each_byte_once
    (inline_memset fuel LIBC_TARGET_ARCH_IS_RISCV64 dst value count)
    dst value count /\
  writes_each_byte_once
    (inline_memset fuel LIBC_TARGET_ARCH_IS_RISCV32 dst value count)
    dst value count /\
  writes_each_byte_once
    (inline_memset fuel LIBC_TARGET_ARCH_IS_OTHER dst value count)
    dst value count.
Proof.
  intros Hv Hc Hf. cbn [inline_memset]. splits.
  - rewrite inline_memset_aligned_access_64bit_unfold.
    destruct (count <=? 16) eqn:E; [now apply byte_per_byte_once|].
    apply Z.leb_gt in E.
    apply (aligned_access_body_once fuel uint64_t 3);
      [reflexivity|lia|exact Hv|cbn [sizeof_elem]; lia|exact Hf].
  - rewrite inline_memset_aligned_access_32bit_unfold.
    destruct (count <=? 8) eqn:E; [now apply byte_per_byte_once|].
    apply Z.leb_gt in E.
    apply (aligned_access_body_once fuel uint32_t 2);
      [reflexivity|lia|exact Hv|cbn [sizeof_elem]; lia|exact Hf].
  - now apply byte_per_byte_once.
Qed.

Lemma scalar_targets_write_each_byte_once_witness :
  writes_each_byte_once
    (inline_memset 30 LIBC_TARGET_ARCH_IS_RISCV64 1001 1 21) 1001 1 21 /\
  writes_each_byte_once
    (inline_memset 30 LIBC_TARGET_ARCH_IS_RISCV32 1001 1 21) 1001 1 21 /\
  writes_each_byte_once
    (inline_memset 30 LIBC_TARGET_ARCH_IS_OTHER 1001 1 21) 1001 1 21.
Proof.
  apply (scalar_targets_write_each_byte_once 30 1001 1 21).
  - lia.
  - unfold size_modulus. lia.
  - cbn. lia.
Defined.

(** X7. Beyond [2 * wordSize] bytes an alignment-aware strategy stores at
    most [2 * wordSize - 1] bytes one at a time (fewer than a word before the
    first boundary, at most a word at the end); every other byte is covered
    by an aligned word store, and the two kinds together account for exactly
    [count] bytes. *)
Theorem aligned_access_mostly_word_stores fuel dst value count :
  0 <= count < size_modulus -> count < Z.of_nat fuel ->
  (2 * 4 < count ->
   mostly_word_stores
     (inline_memset_aligned_access_32bit fuel dst value count) 4 count) /\
  (2 * 8 < count ->
   mostly_word_stores
     (inline_memset_aligned_access_64bit fuel dst value count) 8 count).
Proof.
  intros Hc Hf. split; intros Hbig.
  - rewrite inline_memset_aligned_access_32bit_unfold.
    destruct (count <=? 8) eqn:E; [apply Z.leb_le in E; lia|].
    apply (aligned_access_body_counts fuel uint32_t 2);
      [reflexivity|lia|reflexivity|cbn [sizeof_elem]; lia|exact Hf].
  - rewrite inline_memset_aligned_access_64bit_unfold.
    destruct (count <=? 16) eqn:E; [apply Z.leb_le in E; lia|].
    apply (aligned_access_body_counts fuel uint64_t 3);
      [reflexivity|lia|reflexivity|cbn [sizeof_elem]; lia|exact Hf].
Qed.

Lemma aligned_access_mostly_word_stores_witness :
  mostly_word_stores
    (inline_memset_aligned_access_32bit 30 1001 1 21) 4 21 /\
  mostly_word_stores
    (inline_memset_aligned_access_64bit 30 1001 1 21) 8 21.
Proof.
  assert (Hc : 0 <= 21 < size_modulus) by (unfold size_modulus; lia).
  assert (Hf : 21 < Z.of_nat 30) by (cbn; lia).
  destruct (aligned_access_mostly_word_stores 30 1001 1 21 Hc Hf)
    as [H32 H64].
  split; [apply H32|apply H64]; lia.
Defined.

(** ** AArch64 in closed form *)

Lemma loop_iterations_gen w c n :
  0 < w -> w < c -> 0 < n -> w * n <= c -> c - w <= w * n ->
  n = 1 \/ w * (n - 1) < c - w ->
  n = (c - 1) / w.
Proof.
  intros Hw Hc Hn H1 H2 H3.
  apply Z.div_unique with (r := c - 1 - w * n). 2: lia.
  destruct H3 as [->|H3]; nia.
Qed.

Lemma wp_Memset_loop_and_tail_trace_gen fuel t dst value count :
  sizeof_elem t < count < size_modulus -> count < Z.of_nat fuel ->
  let w := sizeof_elem t in
  wp (Memset_loop_and_tail fuel (Elem t) dst value count)
     (fun _ tr =>
        tr = strided (unit_store Unaligned w value) w dst
                     (Z.to_nat ((count - 1) / w))
             ++ [unit_store Unaligned w value (dst + count - w)]).
Proof.
  intros Hc Hf w. pose proof (sizeof_elem_pos t) as Hw. fold w in Hw, Hc.
  unfold Memset_loop_and_tail, Memset_tail. cbn [sizeof]. fold w.
  apply wp_bind.
  replace 0 with (w * 0) at 1 by lia.
  eapply wp_mono.
  { apply (wp_block_loop (strided_rel (unit_store Unaligned w value) w)
             (strided_rel_app _ w) _ w dst count Hw); [lia| |lia|lia|lia].
    intros j Hj Hin.
    exact (strided_rel_one (unit_store Unaligned w value) w (dst + w * j)). }
  intros [] t1 (n & Hn1 & Hn2 & Hn3 & Hn4 & (n0 & Hn0 & ->)). cbv beta.
  apply wp_emit.
  assert (Hnn : n = Z.of_nat n0) by nia. subst n.
  rewrite <- (loop_iterations_gen w count (Z.of_nat n0)) by lia.
  rewrite Nat2Z.id. do 2 f_equal. lia.
Qed.

Lemma wp_BzeroCacheLine_loop_and_tail_trace fuel dst count :
  64 < count < size_modulus -> count < Z.of_nat fuel ->
  wp (BzeroCacheLine_loop_and_tail fuel dst 0 count)
     (fun _ tr =>
        tr = strided zva_store 64 dst (Z.to_nat ((count - 1) / 64))
             ++ [unit_store Unaligned 64 0 (dst + count - 64)]).
Proof.
  intros Hc Hf.
  unfold BzeroCacheLine_loop_and_tail, BzeroCacheLine_SIZE, Memset_tail.
  apply wp_bind.
  change (block_loop fuel BzeroCacheLine_block 64 dst count 0)
    with (block_loop fuel BzeroCacheLine_block 64 dst count (64 * 0)).
  eapply wp_mono.
  { apply (wp_block_loop (strided_rel zva_store 64)
             (strided_rel_app _ 64) _ 64 dst count); try lia.
    intros j Hj Hin. exact (strided_rel_one zva_store 64 (dst + 64 * j)). }
  intros [] t1 (n & Hn1 & Hn2 & Hn3 & Hn4 & (n0 & Hn0 & ->)). cbv beta.
  apply wp_emit.
  assert (Hnn : n = Z.of_nat n0) by nia. subst n.
  rewrite <- (loop_iterations_gen 64 count (Z.of_nat n0)) by lia.
  rewrite Nat2Z.id. do 2 f_equal. lia.
Qed.

Lemma inline_memset_aarch64_large_trace fuel hasZva dst value count :
  96 < count < size_modulus -> count < Z.of_nat fuel ->
  inline_memset_aarch64 fuel hasZva dst value count =
  Some (tt,
    if (448 <=? count) && (value =? 0) && hasZva then
      let p := dst + (64 - dst mod 64) in
      [unit_store Unaligned 64 0 dst]
        ++ strided zva_store 64 p (Z.to_nat ((dst + count - p - 1) / 64))
        ++ [unit_store Unaligned 64 0 (dst + count - 64)]
    else
      let p := dst + (16 - dst mod 16) in
      [unit_store Unaligned 16 value dst]
        ++ strided (unit_store Unaligned 64 value) 64 p
             (Z.to_nat ((dst + count - p - 1) / 64))
        ++ [unit_store Unaligned 64 value (dst + count - 64)]).
Proof.
  intros Hc Hf.
  rewrite (inline_memset_aarch64_large fuel hasZva dst value count) by lia.
  destruct ((448 <=? count) && (value =? 0) && hasZva) eqn:Z.
  - apply andb_true_iff in Z. destruct Z as [Z _].
    apply andb_true_iff in Z. destruct Z as [Z1 _]. apply Z.leb_le in Z1.
    assert (Hwp : wp (Memset_block AArch64.uint512_t dst 0 ;;
                      let '(dst, count) := align_to_next_boundary 64 dst count in
                      BzeroCacheLine_loop_and_tail fuel dst 0 count)
      (fun _ tr =>
         tr = [unit_store Unaligned 64 0 dst]
              ++ strided zva_store 64 (dst + (64 - dst mod 64))
                   (Z.to_nat
                      ((dst + count - (dst + (64 - dst mod 64)) - 1) / 64))
              ++ [unit_store Unaligned 64 0 (dst + count - 64)])).
    { apply wp_bind. apply wp_emit. align_cases 6 64 dst count.
      eapply wp_mono;
        [apply (wp_BzeroCacheLine_loop_and_tail_trace fuel p c); lia|].
      intros [] t2 ->. cbv beta. rewrite <- Hp0.
      replace (dst + count - p - 1) with (c - 1) by lia.
      replace (p + c - 64) with (dst + count - 64) by lia. reflexivity. }
    apply wp_result in Hwp. destruct Hwp as (tr & Heq & ->). exact Heq.
  - assert (Hwp : wp (Memset_block AArch64.uint128_t dst value ;;
                      let '(dst, count) := align_to_next_boundary 16 dst count in
                      Memset_loop_and_tail fuel AArch64.uint512_t dst value count)
      (fun _ tr =>
         tr = [unit_store Unaligned 16 value dst]
              ++ strided (unit_store Unaligned 64 value) 64
                   (dst + (16 - dst mod 16))
                   (Z.to_nat
                      ((dst + count - (dst + (16 - dst mod 16)) - 1) / 64))
              ++ [unit_store Unaligned 64 value (dst + count - 64)])).
    { apply wp_bind. apply wp_emit. align_cases 4 16 dst count.
      eapply wp_mono;
        [apply (wp_Memset_loop_and_tail_trace_gen fuel generic_v512 p value c);
         cbn [sizeof_elem]; lia|].
      intros [] t2 ->. cbv beta. cbn [sizeof_elem]. rewrite <- Hp0.
      replace (dst + count - p - 1) with (c - 1) by lia.
      replace (p + c - 64) with (dst + count - 64) by lia. reflexivity. }
    apply wp_result in Hwp. destruct Hwp as (tr & Heq & ->). exact Heq.
Qed.

(** ** The dedicated zero-fill path against the generic path *)

Lemma trace_inj (a b : list Store) : Some (tt, a) = Some (tt, b) -> a = b.
Proof. intros H. now injection H. Qed.

Lemma aarch64_zva_path_shape fuel z dst v count tr :
  96 < count < size_modulus -> count < Z.of_nat fuel ->
  (448 <=? count) && (v =? 0) && z = true ->
  inline_memset_aarch64 fuel z dst v count = Some (tt, tr) ->
  zva_path_trace fuel dst count tr.
Proof.
  intros Hc Hf Hz Heq.
  rewrite inline_memset_aarch64_large_trace in Heq by lia.
  rewrite Hz in Heq. cbv zeta in Heq. apply trace_inj in Heq. subst tr.
  assert (Hbig : 448 <= count).
  { apply andb_true_iff in Hz. destruct Hz as [Hz _].
    apply andb_true_iff in Hz. destruct Hz as [Hz _]. now apply Z.leb_le. }
  unfold zva_path_trace. align_cases 6 64 dst count.
  destruct (wp_result _ _ (wp_BzeroCacheLine_loop_and_tail_trace fuel p c
                             ltac:(lia) ltac:(lia))) as (tl & Hl & ->).
  eexists. eexists. splits; try reflexivity; try lia; try exact Hp2.
  - rewrite Hl. replace (p + c - 64) with (dst + count - 64) by lia.
    reflexivity.
  - rewrite <- Hp0. replace (dst + count - p - 1) with (c - 1) by lia.
    reflexivity.
Qed.

Lemma aarch64_generic_path_shape fuel z dst v count tr :
  96 < count < size_modulus -> count < Z.of_nat fuel ->
  (448 <=? count) && (v =? 0) && z = false ->
  inline_memset_aarch64 fuel z dst v count = Some (tt, tr) ->
  generic_path_trace fuel dst v count tr.
Proof.
  intros Hc Hf Hz Heq.
  rewrite inline_memset_aarch64_large_trace in Heq by lia.
  rewrite Hz in Heq. cbv zeta in Heq. apply trace_inj in Heq. subst tr.
  unfold generic_path_trace. align_cases 4 16 dst count.
  destruct (wp_result _ _ (wp_Memset_loop_and_tail_trace_gen fuel generic_v512
                             p v c ltac:(cbn [sizeof_elem]; lia) ltac:(lia)))
    as (tl & Hl & ->).
  eexists. eexists. splits; try reflexivity; try lia; try exact Hp2.
  - unfold AArch64.uint512_t. rewrite Hl. cbn [sizeof_elem].
    replace (p + c - 64) with (dst + count - 64) by lia. reflexivity.
  - rewrite <- Hp0. replace (dst + count - p - 1) with (c - 1) by lia.
    reflexivity.
Qed.

(** C3. On AArch64 the dedicated path (the 512-bit zero block at [dst], the
    pointer advanced to the next 64-byte boundary, then the cache-line-zeroing
    [loop_and_tail] on what remains) is taken exactly when [count >= 448],
    [value = 0] and the capability query answers true, and only then does
    the trace contain a [dc zva]; beyond 96 bytes the generic path (128-bit
    head, 16-byte boundary, generic 512-bit [loop_and_tail]) is taken
    otherwise.  For a zero fill of at least 448 bytes the two paths both
    zero exactly [dst, dst + count), so the memory they leave is the same,
    byte for byte. *)
Theorem aarch64_zero_fill_paths_agree fuel hasZva dst value count :
  0 <= value < 256 -> 0 <= count < size_modulus -> count < Z.of_nat fuel ->
  (exists tr,
      inline_memset_aarch64 fuel hasZva dst value count = Some (tt, tr) /\
      (zva_path_trace fuel dst count tr <->
       448 <= count /\ value = 0 /\ hasZva = true) /\
      (Exists is_zva tr <-> 448 <= count /\ value = 0 /\ hasZva = true) /\
      (96 < count -> ~ (448 <= count /\ value = 0 /\ hasZva = true) ->
       generic_path_trace fuel dst value count tr)) /\
  (448 <= count ->
   exists tr_zva tr_generic,
     inline_memset_aarch64 fuel true dst 0 count = Some (tt, tr_zva) /\
     inline_memset_aarch64 fuel false dst 0 count = Some (tt, tr_generic) /\
     zva_path_trace fuel dst count tr_zva /\
     generic_path_trace fuel dst 0 count tr_generic /\
     Exists is_zva tr_zva /\ ~ Exists is_zva tr_generic /\
     forall (m : Mem) x,
       exec tr_zva m x = exec tr_generic m x /\
       (dst <= x < dst + count -> exec tr_zva m x = 0) /\
       (~ (dst <= x < dst + count) -> exec tr_zva m x = m x)).
Proof.
  intros Hv Hc Hf.
  assert (Hcond : forall z v,
             (448 <=? count) && (v =? 0) && z = true <->
             448 <= count /\ v = 0 /\ z = true).
  { intros z v. rewrite !andb_true_iff, Z.leb_le, Z.eqb_eq. tauto. }
  split.
  - destruct (aarch64_zva_store_iff fuel hasZva dst value count Hv Hc Hf)
      as (tr & Heq & _ & Hz).
    exists tr. splits; [exact Heq| |exact Hz|].
    + split.
      * intros Hpath. apply Hz. unfold zva_path_trace in Hpath.
        destruct (align_to_next_boundary 64 dst count) as [p c].
        destruct Hpath as (head & tl & _ & _ & _ & _ & _ & Hl & _ & ->).
        apply Exists_app. right.
        now apply (BzeroCacheLine_loop_and_tail_first fuel p c).
      * intros Hyes.
        apply (aarch64_zva_path_shape fuel hasZva dst value count tr);
          [lia|exact Hf|now apply Hcond|exact Heq].
    + intros Hbig Hno.
      apply (aarch64_generic_path_shape fuel hasZva dst value count tr);
        [lia|exact Hf| |exact Heq].
      destruct ((448 <=? count) && (value =? 0) && hasZva) eqn:E;
        [|reflexivity].
      exfalso. apply Hno. now apply Hcond.
  - intros Hbig.
    destruct (aarch64_zva_store_iff fuel true dst 0 count
                ltac:(lia) Hc Hf) as (tz & Hez & Hfz & Hzz).
    destruct (aarch64_zva_store_iff fuel false dst 0 count
                ltac:(lia) Hc Hf) as (tg & Heg & Hfg & Hzg).
    exists tz, tg. splits; auto.
    + apply (aarch64_zva_path_shape fuel true dst 0 count tz);
        [lia|exact Hf| |exact Hez].
      apply Hcond. auto.
    + apply (aarch64_generic_path_shape fuel false dst 0 count tg);
        [lia|exact Hf| |exact Heg].
      now rewrite andb_false_r.
    + apply Hzz. auto.
    + intros Hz. apply Hzg in Hz. destruct Hz as (_ & _ & Hz). discriminate.
    + intros m x. splits.
      * exact (fills_exec_eq _ _ _ _ m x Hfz Hfg).
      * intros Hx. now apply (fills_exec _ _ _ m x Hfz).
      * intros Hx. now apply (fills_exec _ _ _ m x Hfz).
Qed.

Lemma aarch64_zero_fill_paths_agree_witness :
  (exists tr,
      inline_memset_aarch64 501 true 1001 0 500 = Some (tt, tr) /\
      (zva_path_trace 501 1001 500 tr <->
       448 <= 500 /\ 0 = 0 /\ true = true) /\
      (Exists is_zva tr <-> 448 <= 500 /\ 0 = 0 /\ true = true) /\
      (96 < 500 -> ~ (448 <= 500 /\ 0 = 0 /\ true = true) ->
       generic_path_trace 501 1001 0 500 tr)) /\
  exists tr_zva tr_generic,
    inline_memset_aarch64 501 true 1001 0 500 = Some (tt, tr_zva) /\
    inline_memset_aarch64 501 false 1001 0 500 = Some (tt, tr_generic) /\
    zva_path_trace 501 1001 500 tr_zva /\
    generic_path_trace 501 1001 0 500 tr_generic /\
    Exists is_zva tr_zva /\ ~ Exists is_zva tr_generic /\
    forall (m : Mem) x,
      exec tr_zva m x = exec tr_generic m x /\
      (1001 <= x < 1001 + 500 -> exec tr_zva m x = 0) /\
      (~ (1001 <= x < 1001 + 500) -> exec tr_zva m x = m x).
Proof.
  assert (Hv : 0 <= 0 < 256) by lia.
  assert (Hc : 0 <= 500 < size_modulus) by (unfold size_modulus; lia).
  assert (Hf : 500 < Z.of_nat 501) by (cbn; lia).
  destruct (aarch64_zero_fill_paths_agree 501 true 1001 0 500 Hv Hc Hf)
    as [H1 H2].
  split; [exact H1|]. apply H2. lia.
Defined.

Lemma inline_memset_aarch64_small_trace fuel hasZva dst value count :
  count <= 96 ->
  inline_memset_aarch64 fuel hasZva dst value count =
  Some (tt, aarch64_closed_form hasZva dst value count).
Proof.
  intros Hsmall. unfold inline_memset_aarch64, aarch64_closed_form.
  destruct (count =? 0) eqn:E0; [reflexivity|].
  destruct (count <=? 3) eqn:E1.
  { destruct (1 <? count); reflexivity. }
  destruct (count <=? 8) eqn:E2; [reflexivity|].
  destruct (count <=? 16) eqn:E3; [reflexivity|].
  destruct (count <=? 32) eqn:E4; [reflexivity|].
  destruct (count <=? 64) eqn:E5.
  { replace (count <=? 32 + 64) with true
      by (symmetry; apply Z.leb_le; lia). reflexivity. }
  replace (count <=? 32 + 64) with true by (symmetry; apply Z.leb_le; lia).
  replace (count <=? 96) with true by (symmetry; apply Z.leb_le; lia).
  reflexivity.
Qed.

Lemma aarch64_closed_form_large hasZva dst value count :
  96 < count ->
  aarch64_closed_form hasZva dst value count =
  if (448 <=? count) && (value =? 0) && hasZva then
    let p := dst + (64 - dst mod 64) in
    [unit_store Unaligned 64 0 dst]
      ++ strided zva_store 64 p (Z.to_nat ((dst + count - p - 1) / 64))
      ++ [unit_store Unaligned 64 0 (dst + count - 64)]
  else
    let p := dst + (16 - dst mod 16) in
    [unit_store Unaligned 16 value dst]
      ++ strided (unit_store Unaligned 64 value) 64 p
           (Z.to_nat ((dst + count - p - 1) / 64))
      ++ [unit_store Unaligned 64 value (dst + count - 64)].
Proof.
  intros Hbig. unfold aarch64_closed_form.
  destruct (count =? 0) eqn:E0; [apply Z.eqb_eq in E0; lia|].
  destruct (count <=? 3) eqn:E1; [apply Z.leb_le in E1; lia|].
  destruct (count <=? 8) eqn:E2; [apply Z.leb_le in E2; lia|].
  destruct (count <=? 16) eqn:E3; [apply Z.leb_le in E3; lia|].
  destruct (count <=? 32) eqn:E4; [apply Z.leb_le in E4; lia|].
  destruct (count <=? 64) eqn:E5; [apply Z.leb_le in E5; lia|].
  destruct (count <=? 96) eqn:E6; [apply Z.leb_le in E6; lia|].
  reflexivity.
Qed.

Lemma aarch64_closed_form_length hasZva dst value count :
  0 <= count ->
  Z.of_nat (length (aarch64_closed_form hasZva dst value count))
  <= count / 64 + 3.
Proof.
  intros Hc. pose proof (Z.div_pos count 64 Hc ltac:(lia)) as Hq.
  destruct (Z_le_gt_dec count 96) as [Hsmall|Hbig].
  - unfold aarch64_closed_form.
    destruct (count =? 0); [cbn [length]; lia|].
    destruct (count <=? 3); [destruct (1 <? count); cbn [length]; lia|].
    destruct (count <=? 8); [cbn [length]; lia|].
    destruct (count <=? 16); [cbn [length]; lia|].
    destruct (count <=? 32); [cbn [length]; lia|].
    destruct (count <=? 64); [cbn [length]; lia|].
    destruct (count <=? 96) eqn:E; [cbn [length]; lia|].
    apply Z.leb_gt in E. lia.
  - rewrite aarch64_closed_form_large by lia.
    assert (Hn : forall a, 0 < a <= 64 ->
               (dst + count - (dst + (a - dst mod a)) - 1) / 64 <= count / 64).
    { intros a Ha. pose proof (Z.mod_pos_bound dst a ltac:(lia)).
      apply Z.div_le_mono; lia. }
    assert (Hn0 : forall a, 0 < a <= 64 ->
               0 <= (dst + count - (dst + (a - dst mod a)) - 1) / 64).
    { intros a Ha. pose proof (Z.mod_pos_bound dst a ltac:(lia)).
      apply Z.div_pos; lia. }
    destruct ((448 <=? count) && (value =? 0) && hasZva); cbv zeta;
      rewrite !length_app, length_strided; cbn [length].
    + specialize (Hn 64 ltac:(lia)). specialize (Hn0 64 ltac:(lia)). lia.
    + specialize (Hn 16 ltac:(lia)). specialize (Hn0 16 ltac:(lia)). lia.
Qed.

(** X8. The AArch64 dispatcher in closed form, for every count: the trace is
    the head/tail pair of the tier up to 32 bytes, one 256-bit block and a
    tail up to 64 bytes, two blocks and a tail up to 96 bytes, and beyond
    that a head block, [(c - 1) / 64] loop stores at stride 64 from the next
    boundary (where [c] bytes remain), and the tail store. *)
Theorem aarch64_trace_in_closed_form fuel hasZva dst value count :
  0 <= count < size_modulus -> count < Z.of_nat fuel ->
  inline_memset_aarch64 fuel hasZva dst value count =
  Some (tt, aarch64_closed_form hasZva dst value count).
Proof.
  intros Hc Hf. destruct (Z_le_gt_dec count 96) as [Hsmall|Hbig].
  - now apply inline_memset_aarch64_small_trace.
  - rewrite inline_memset_aarch64_large_trace by lia.
    now rewrite aarch64_closed_form_large by lia.
Qed.

Lemma aarch64_trace_in_closed_form_witness :
  inline_memset_aarch64 501 true 1001 0 500 =
  Some (tt, aarch64_closed_form true 1001 0 500).
Proof.
  apply (aarch64_trace_in_closed_form 501 true 1001 0 500).
  - unfold size_modulus. lia.
  - cbn. lia.
Defined.

Lemma next_boundary_aligned k dst :
  0 <= k -> (dst + (2 ^ k - dst mod 2 ^ k)) mod 2 ^ k = 0.
Proof.
  intros Hk. assert (H : 0 < 2 ^ k) by (apply Z.pow_pos_nonneg; lia).
  replace (dst + (2 ^ k - dst mod 2 ^ k))
    with (dst - dst mod 2 ^ k + 1 * 2 ^ k) by lia.
  rewrite Z.mod_add by lia.
  rewrite Zminus_mod_idemp_r, Z.sub_diag. apply Z.mod_0_l. lia.
Qed.

Lemma stride_keeps_alignment a p w j :
  0 < a -> p mod a = 0 -> w mod a = 0 -> (p + w * j) mod a = 0.
Proof.
  intros Ha Hp Hw.
  rewrite Z.add_mod, Hp, Z.mul_mod, Hw by lia.
  rewrite Z.mul_0_l, Z.mod_0_l by lia. reflexivity.
Qed.



(** X10. On the generic AArch64 path beyond 96 bytes every 512-bit store
    other than the tail store is issued at a 16-byte boundary. *)
Theorem aarch64_generic_loop_is_16_byte_aligned fuel hasZva dst value count :
  96 < count < size_modulus -> count < Z.of_nat fuel ->
  (448 <=? count) && (value =? 0) && hasZva = false ->
  exists tr,
    inline_memset_aarch64 fuel hasZva dst value count = Some (tt, tr) /\
    Forall (fun s => st_size s = 64 ->
                     st_addr s mod 16 = 0 \/ st_addr s = dst + count - 64) tr.
Proof.
  intros Hc Hf Hz.
  rewrite inline_memset_aarch64_large_trace by lia. rewrite Hz. cbv zeta.
  pose proof (next_boundary_aligned 4 dst ltac:(lia)) as Hp.
  change (2 ^ 4) with 16 in Hp.
  eexists. split; [reflexivity|].
  repeat (apply Forall_app; split).
  - apply Forall_cons; [|apply Forall_nil].
    cbn [unit_store st_size]. discriminate 1.
  - apply strided_Forall. intros j Hj _. left.
    cbn [unit_store st_addr].
    apply stride_keeps_alignment; [lia|exact Hp|reflexivity].
  - apply Forall_cons; [|apply Forall_nil]. intros _. now right.
Qed.

Lemma aarch64_generic_loop_is_16_byte_aligned_witness :
  exists tr,
    inline_memset_aarch64 501 true 1001 7 500 = Some (tt, tr) /\
    Forall (fun s => st_size s = 64 ->
                     st_addr s mod 16 = 0 \/ st_addr s = 1001 + 500 - 64) tr.
Proof.
  apply (aarch64_generic_loop_is_16_byte_aligned 501 true 1001 7 500).
  - unfold size_modulus. lia.
  - cbn. lia.
  - reflexivity.
Defined.

(** ** The aligned loop of x86 *)





(** ** Cost on AArch64 *)

(** X12. The AArch64 dispatcher issues at most [count / 64 + 3] stores: at
    most three up to 96 bytes, and beyond that one block per 64 bytes plus
    the head and tail stores. *)
Theorem aarch64_store_count_is_bounded fuel hasZva dst value count :
  0 <= count < size_modulus -> count < Z.of_nat fuel ->
  exists tr,
    inline_memset_aarch64 fuel hasZva dst value count = Some (tt, tr) /\
    Z.of_nat (length tr) <= count / 64 + 3.
Proof.
  intros Hc Hf. exists (aarch64_closed_form hasZva dst value count).
  split; [|apply aarch64_closed_form_length; lia].
  destruct (Z_le_gt_dec count 96) as [Hsmall|Hbig].
  - now apply inline_memset_aarch64_small_trace.
  - rewrite inline_memset_aarch64_large_trace by lia.
    now rewrite aarch64_closed_form_large by lia.
Qed.

Lemma aarch64_store_count_is_bounded_witness :
  exists tr,
    inline_memset_aarch64 501 false 1001 7 500 = Some (tt, tr) /\
    Z.of_nat (length tr) <= 500 / 64 + 3.
Proof.
  apply (aarch64_store_count_is_bounded 501 false 1001 7 500).
  - unfold size_modulus. lia.
  - cbn. lia.
Defined.
